(** * BINDetect: the controller [run_bindetect] of tobias/footprinting/BINDetect.py

    A shallow embedding of the statistical part of [run_bindetect]: the GC
    background of the motifs, the round-robin writer queues, the per-condition
    score thresholds and pseudocount, the background log2 fold-change models,
    the header of the result table and the guard of the distance matrix.

    Conventions.
    - A numpy array of floats is a [list Q]; arithmetic is exact, so the
      development speaks about the values the code computes up to floating
      point rounding.
    - The scientific stack (numpy's transcendental functions and percentile,
      scikit-learn's [GaussianMixture], scipy's [lognorm] and [fmin]) and the
      helpers of this package that live in other modules ([process_tfbs],
      [overlap_to_distance]) are fields of the record [Env]; every definition
      of the pipeline takes one.
    - A call that can raise returns an [Outcome]; [sys.exit(msg)] is
      [SysExit msg], an exception that nobody catches is [Raised].
    - Logging and the figures (and with them the [args.debug] branches) are
      left out. *)

From Stdlib Require Import QArith Qround Qabs Qminmax Lqa.
From stdpp Require Import gmap strings list fin_maps.

Local Open Scope Q_scope.

(** ** Numpy on exact rationals *)

Module Np.

(** [np.sum] of a one-dimensional array. *)
Definition sum (xs : list Q) : Q := foldr Qplus 0 xs.

(** [np.mean]: the sum over the number of elements. *)
Definition mean (xs : list Q) : Q := sum xs / inject_Z (Z.of_nat (length xs)).

(** [np.isclose(x, 0.0)] with the default tolerances: |x - 0| <= atol + rtol * |0|,
    atol = 1e-08. *)
Definition isclose0 (x : Q) : bool := Qle_bool (Qabs x) (1 # 100000000).

(** [a[mask]]: the elements of [a] where the boolean mask holds. *)
Fixpoint mask_index {A : Type} (a : list A) (mask : list bool) : list A :=
  match a, mask with
  | x :: a', b :: mask' => if b then x :: mask_index a' mask' else mask_index a' mask'
  | _, _ => []
  end.

(** [np.argmax]: the index of the first occurrence of the maximum. *)
Fixpoint argmax_from (best : Q) (besti i : nat) (xs : list Q) : nat :=
  match xs with
  | [] => besti
  | x :: xs' => if Qlt_le_dec best x then argmax_from x i (S i) xs'
                else argmax_from best besti (S i) xs'
  end.

Definition argmax (xs : list Q) : nat :=
  match xs with
  | [] => O
  | x :: xs' => argmax_from x O 1%nat xs'
  end.

End Np.

(** ** GC content for motif scanning (lines 236-241) *)

(** [gc_content = np.mean(gc_content_pool)]: one entry per chunk of peaks. *)
Definition gc_content (gc_content_pool : list Q) : Q := Np.mean gc_content_pool.

(** [bg = np.array([(1-args.gc)/2.0, args.gc/2.0, args.gc/2.0, (1-args.gc)/2.0])],
    the A, C, G, T background of every motif. *)
Definition bg (gc : Q) : list Q := [(1 - gc) / 2; gc / 2; gc / 2; (1 - gc) / 2].

(** ** Python's [round(x, ndigits)] on exact rationals *)

(** Rounding to the nearest integer, ties to the even one. *)
Definition rint (x : Q) : Z :=
  let f := Qfloor x in
  match Qcompare (x - inject_Z f) (1 # 2) with
  | Lt => f
  | Gt => (f + 1)%Z
  | Eq => if Z.even f then f else (f + 1)%Z
  end.

Definition pow10 (ndigits : nat) : Q := inject_Z (10 ^ Z.of_nat ndigits).

Definition py_round (x : Q) (ndigits : nat) : Q :=
  inject_Z (rint (x * pow10 ndigits)) / pow10 ndigits.

(** ** Outcomes of a run *)

Inductive Outcome (A : Type) : Type :=
| Done (a : A)             (* the statement sequence ran to its end *)
| SysExit (msg : string)   (* sys.exit(msg) *)
| Raised (call : string).  (* the named call raised and nothing catches it *)

Arguments Done {A} a.
Arguments SysExit {A} msg.
Arguments Raised {A} call.

#[global] Instance outcome_ret : MRet Outcome := fun A a => Done a.

#[global] Instance outcome_bind : MBind Outcome := fun A B k m =>
  match m with
  | Done a => k a
  | SysExit msg => SysExit msg
  | Raised call => Raised call
  end.

(** A library call that raises when it has no result. *)
Definition call {A : Type} (name : string) (r : option A) : Outcome A :=
  match r with
  | Some a => Done a
  | None => Raised name
  end.

(** A [for] loop that threads its local variables and stops at the first
    statement that does not complete. *)
Fixpoint for_each {S X : Type} (body : S → X → Outcome S) (xs : list X) (s : S) : Outcome S :=
  match xs with
  | [] => Done s
  | x :: xs' => s' ← body s x; for_each body xs' s'
  end.

(** ** Data of the run *)

(** A fitted [sklearn.mixture.GaussianMixture]: the attributes the code reads. *)
Record GaussianMixture : Type := {
  n_components : nat;
  weights_ : list Q;
  means_ : list (list Q);              (* shape (n_components, n_features) *)
  covariances_ : list (list (list Q))  (* shape (n_components, n_features, n_features) *)
}.

(** The tuple returned by [scipy.stats.lognorm.fit]: shape, loc, scale. *)
Definition LogParams : Type := (Q * Q * Q)%type.

(** The fields of [args] that the statistical part reads or assigns. *)
Record Args : Type := {
  signals : list string;
  cond_names : list string;
  bound_threshold : Q;
  pseudo : option Q;             (* None until configured or estimated *)
  thresholds : gmap string Q;
  cores : nat
}.

Definition set_thresholds (args : Args) (t : gmap string Q) : Args :=
  {| signals := signals args; cond_names := cond_names args;
     bound_threshold := bound_threshold args; pseudo := pseudo args;
     thresholds := t; cores := cores args |}.

Definition set_pseudo (args : Args) (p : Q) : Args :=
  {| signals := signals args; cond_names := cond_names args;
     bound_threshold := bound_threshold args; pseudo := Some p;
     thresholds := thresholds args; cores := cores args |}.

(** The merged [background] dictionary: one signal vector per condition and
    the GC content sampled at the same positions. *)
Record Background : Type := {
  bg_signal : gmap string (list Q);
  bg_gc : list Q
}.

(** One row of the result table: its index (the TF name) and its cells. *)
Definition Row : Type := (string * list Q)%type.

(** ** The collaborators of [run_bindetect] *)

Record Env : Type := {
  (* numpy *)
  np_log : Q → Q;
  np_log2 : Q → Q;
  np_exp : Q → Q;
  np_sqrt : Q → Q;
  np_percentile : list Q → Q → option Q;
  (* sklearn.mixture.GaussianMixture(n_components, covariance_type="full",
     random_state=1): fit on the rows of a 2-D array, and the BIC of a fit *)
  gmm_fit : nat → list (list Q) → option GaussianMixture;
  gmm_bic : GaussianMixture → list (list Q) → Q;
  (* scipy.stats.lognorm and scipy.optimize.fmin *)
  lognorm_fit : list Q → Q → Q → option LogParams;   (* data, f0, fscale *)
  lognorm_ppf : Q → LogParams → Q;
  lognorm_pdf : Q → LogParams → Q;
  fmin : (Q → Q) → Q → Q;                             (* fmin(f, x0)[0] *)
  (* list(set(names)): the iteration order of a set of strings *)
  list_set : list string → list string;
  (* tobias.footprinting.BINDetect_functions *)
  process_tfbs : string → Args → gmap (string * string) GaussianMixture → Row;
  overlap_to_distance : list (string * string * Q) → list (list Q) * list string
}.

(** [itertools.combinations(xs, 2)] *)
Fixpoint combinations2 {A : Type} (xs : list A) : list (A * A) :=
  match xs with
  | [] => []
  | x :: xs' => map (pair x) xs' ++ combinations2 xs'
  end.

(** [itertools.product(xs, ys)] *)
Definition product {A B : Type} (xs : list A) (ys : list B) : list (A * B) :=
  x ← xs; map (pair x) ys.

(** What the controller does once the models are fitted, in order. *)
Inductive Event : Type :=
| EvProcessTfbs (name : string)        (* process_tfbs(name, args, log2fc_params) *)
| EvWriteResults (rows : list Row)     (* bindetect_results.xlsx and .txt *)
| EvDistanceMatrix (names : list string)  (* overlap_to_distance and TF_distance_matrix.txt *)
| EvPlotBindetect (cond1 cond2 : string).

Section Pipeline.

Context (E : Env).

(** *** Choosing the number of mixture components by BIC (lines 429-439, 530-540) *)

(** [bic < lowest_bic], where [lowest_bic] starts as [np.inf] ([None]). *)
Definition bic_lt (bic : Q) (lowest_bic : option Q) : bool :=
  match lowest_bic with
  | None => true
  | Some l => if Qlt_le_dec bic l then true else false
  end.

(** The body of [for n_components in ...]: the loop variables are
    [lowest_bic] and [best_gmm]. *)
Definition try_components (data : list (list Q))
    (st : option Q * option GaussianMixture) (n : nat)
    : Outcome (option Q * option GaussianMixture) :=
  gmm ← call "GaussianMixture.fit" (gmm_fit E n data);
  let bic := gmm_bic E gmm data in
  if bic_lt bic st.1 then Done (Some bic, Some gmm) else Done st.

Definition best_gmm_over (n_components_range : list nat) (data : list (list Q))
    : Outcome GaussianMixture :=
  st ← for_each (try_components data) n_components_range (None, None);
  call "best_gmm" st.2.

(** [x.reshape(-1, 1)] *)
Definition reshape_col (xs : list Q) : list (list Q) := map (λ x, [x]) xs.

(** *** Score distribution of one condition (lines 421-469) *)

(** Lines 422-425: the background scores of the condition without the zeroes. *)
Definition bg_values_of (background : Background) (bigwig : string) : Outcome (list Q) :=
  bg_values ← call "background[signal][bigwig]" (bg_signal background !! bigwig);
  Done (Np.mask_index bg_values (map (λ v, negb (Np.isclose0 v)) bg_values)).

(** Lines 426-445: the log-normal fit anchored at the right-most gaussian. *)
Definition fit_lognorm (bg_values : list Q) : Outcome LogParams :=
  x_max ← call "np.percentile" (np_percentile E bg_values 99);
  gmm ← best_gmm_over (seq 1 2) (reshape_col (map (np_log E) bg_values));
  let means := concat (means_ gmm) in
  let sds := map (np_sqrt E) (concat (concat (covariances_ gmm))) in
  let chosen_i := Np.argmax means in
  sd ← call "sds[chosen_i]" (sds !! chosen_i);
  mean ← call "means[chosen_i]" (means !! chosen_i);
  call "lognorm.fit"
    (lognorm_fit E
       (Np.mask_index bg_values (map (λ v, if Qlt_le_dec v x_max then true else false) bg_values))
       sd (np_exp E mean)).

(** Line 462 *)
Definition threshold_of (bound_threshold : Q) (log_params : LogParams) : Q :=
  py_round (lognorm_ppf E (1 - bound_threshold) log_params) 5.

(** Lines 467-468: half the mode of the fitted distribution. *)
Definition pseudo_of (log_params : LogParams) : Q :=
  let mode := fmin E (λ x, - lognorm_pdf E x log_params) 0 in
  mode / 2.

(** The Threshold Estimator for one condition: threshold and pseudocount
    candidate. *)
Definition estimate_condition (bound_threshold : Q) (background : Background)
    (bigwig : string) : Outcome (Q * Q) :=
  bg_values ← bg_values_of background bigwig;
  log_params ← fit_lognorm bg_values;
  Done (threshold_of bound_threshold log_params, pseudo_of log_params).

(** The local variables of the loop over [args.cond_names] (lines 415-469):
    [args.thresholds], the list [pseudos] and the variable [pseudo], which is
    unbound before the first iteration. *)
Record ScoreVars : Type := {
  sv_thresholds : gmap string Q;
  sv_pseudos : list Q;
  sv_pseudo : option Q
}.

Definition score_step (bound_threshold : Q) (background : Background)
    (vars : ScoreVars) (bigwig : string) : Outcome ScoreVars :=
  '(threshold, pseudo) ← estimate_condition bound_threshold background bigwig;
  Done {| sv_thresholds := <[bigwig := threshold]> (sv_thresholds vars);
          sv_pseudos := sv_pseudos vars ++ [pseudo];
          sv_pseudo := Some pseudo |}.

Definition estimate_scores (args : Args) (background : Background) : Outcome ScoreVars :=
  for_each (score_step (bound_threshold args) background) (cond_names args)
    {| sv_thresholds := ∅; sv_pseudos := []; sv_pseudo := None |}.

(** Lines 499-502: [if args.pseudo == None: args.pseudo = np.mean(pseudo)].
    The argument of [np.mean] is the scalar [pseudo]. *)
Definition estimate_pseudocount (configured : option Q) (vars : ScoreVars) : Outcome Q :=
  match configured with
  | Some p => Done p
  | None => pseudo ← call "pseudo" (sv_pseudo vars); Done (Np.mean [pseudo])
  end.

(** *** Background log2 fold changes of one comparison (lines 513-542) *)

Definition zero_message (bigwig1 bigwig2 : string) : string :=
  "ERROR: Bigwig values of conditions " +:+ bigwig1 +:+ " and " +:+ bigwig2
  +:+ " are equal or contain only zeroes - please check your input data.".

(** Line 520: positions where not both scores are close to zero. *)
Definition included (scores1 scores2 : list Q) : list bool :=
  zip_with (λ s1 s2, negb (Np.isclose0 s1 && Np.isclose0 s2)) scores1 scores2.

(** Line 523 *)
Definition log2fcs_of (pseudo : Q) (scores1 scores2 : list Q) : list Q :=
  zip_with (λ s1 s2, np_log2 E ((s1 + pseudo) / (s2 + pseudo))) scores1 scores2.

(** [np.vstack([log2fcs, gcs]).T]: one row (log2fc, gc) per position. *)
Definition values_T (log2fcs gcs : list Q) : list (list Q) :=
  zip_with (λ l g, [l; g]) log2fcs gcs.

(** The three arrays are indexed by one boolean mask; numpy raises when their
    lengths differ. *)
Definition fit_log2fc_background (pseudo : Q) (background : Background)
    (bigwig1 bigwig2 : string) : Outcome GaussianMixture :=
  scores1 ← call "background[signal][bigwig1]" (bg_signal background !! bigwig1);
  scores2 ← call "background[signal][bigwig2]" (bg_signal background !! bigwig2);
  let gcs := bg_gc background in
  if negb ((length scores1 =? length scores2)%nat && (length gcs =? length scores1)%nat)
  then Raised "boolean index"
  else
    let inc := included scores1 scores2 in
    let scores1 := Np.mask_index scores1 inc in
    let scores2 := Np.mask_index scores2 inc in
    let gcs := Np.mask_index gcs inc in
    let log2fcs := log2fcs_of pseudo scores1 scores2 in
    if (length log2fcs =? 0)%nat
    then SysExit (zero_message bigwig1 bigwig2)
    else best_gmm_over (seq 1 9) (values_T log2fcs gcs).

Definition log2fc_step (pseudo : Q) (background : Background)
    (log2fc_params : gmap (string * string) GaussianMixture)
    (comparison : string * string) : Outcome (gmap (string * string) GaussianMixture) :=
  best_gmm ← fit_log2fc_background pseudo background comparison.1 comparison.2;
  Done (<[comparison := best_gmm]> log2fc_params).

(** Lines 508-542 *)
Definition estimate_log2fc_params (args : Args) (pseudo : Q) (background : Background)
    : Outcome (gmap (string * string) GaussianMixture) :=
  if (1 <? length (signals args))%nat
  then for_each (log2fc_step pseudo background) (combinations2 (cond_names args)) ∅
  else Done ∅.

End Pipeline.

(** ** TF names and writer queues (lines 276, 305, 341-351) *)

(** Python's [l[start::step]] for a positive step; [k] counts down to the next
    element that is taken. *)
Fixpoint slice_step {A : Type} (l : list A) (k step : nat) : list A :=
  match l with
  | [] => []
  | x :: l' =>
      match k with
      | O => x :: slice_step l' (step - 1) step
      | S k' => slice_step l' k' step
      end
  end.

(** Line 149 *)
Definition writer_cores : nat := 1.

(** Line 341:
    [[motif_names_predict[i::writer_cores] for i in range(writer_cores)]] *)
Definition TF_names_chunks (motif_names_predict : list string) (writer_cores : nat)
    : list (list string) :=
  map (λ i, slice_step motif_names_predict i writer_cores) (seq 0 writer_cores).

(** Lines 342-351: [qs[TF] = q] for every TF of every chunk; a queue is named
    by its position in [qs_list]. *)
Definition assign_chunk (qs : gmap string nat) (q : nat) (TF_names_sub : list string)
    : gmap string nat :=
  foldl (λ qs TF, <[TF := q]> qs) qs TF_names_sub.

Fixpoint assign_queues (qs : gmap string nat) (q : nat) (chunks : list (list string))
    : gmap string nat :=
  match chunks with
  | [] => qs
  | TF_names_sub :: chunks' => assign_queues (assign_chunk qs q TF_names_sub) (S q) chunks'
  end.

Definition writer_queues (motif_names_predict : list string) (writer_cores : nat)
    : gmap string nat :=
  assign_queues ∅ 0 (TF_names_chunks motif_names_predict writer_cores).

(** ** The result table and the run (lines 603-675) *)

(** Lines 603-605 *)
Definition info_columns (cond_names : list string) (comparisons : list (string * string))
    : list string :=
  ["total_tfbs"]
  ++ map (λ '(cond, metric), cond +:+ "_" +:+ metric)
         (product cond_names ["threshold"; "bound"])
  ++ map (λ '(comparison, metric), comparison.1 +:+ "_" +:+ comparison.2 +:+ "_" +:+ metric)
         (product comparisons ["change"; "pvalue"]).

(** Lines 654-657: the columns that are reformatted before the text table is
    written. *)
Definition formatted_columns (comparisons : list (string * string)) : list string :=
  '(cond1, cond2) ← comparisons;
  [cond1 +:+ "_" +:+ cond2 +:+ "_change"; cond1 +:+ "_" +:+ cond2 +:+ "_pvalue"].

(** Modelled from the spec: the columns of the one-row table that
    [process_tfbs] (tobias.footprinting.BINDetect_functions, not part of this
    file) returns for a TF.  The result row of the spec has the total site
    count, per condition the threshold used and the bound-site count, and per
    condition pair the mean log2 fold change and the p-value; the names are
    those under which lines 638-657 read the columns back ([total_tfbs],
    [<cond>_bound], [<cond1>_<cond2>_change], [<cond1>_<cond2>_pvalue]). *)
Definition process_tfbs_columns (cond_names : list string) : list string :=
  ["total_tfbs"]
  ++ map (λ '(cond, metric), cond +:+ "_" +:+ metric)
         (product cond_names ["threshold"; "bound"])
  ++ map (λ '(conds, metric), conds.1 +:+ "_" +:+ conds.2 +:+ "_" +:+ metric)
         (product (combinations2 cond_names) ["change"; "pvalue"]).

(** What a completed run leaves: [args.thresholds], [args.pseudo], and the
    columns and rows of bindetect_results.txt. *)
Record Result : Type := {
  res_thresholds : gmap string Q;
  res_pseudo : option Q;
  res_columns : list string;
  res_table : list Row
}.

Section Run.

Context (E : Env).

(** Lines 412-542: everything that is fitted before the TFs are processed. *)
Definition fit_models (args : Args) (background : Background)
    : Outcome (Args * gmap (string * string) GaussianMixture) :=
  vars ← estimate_scores E args background;
  pseudo ← estimate_pseudocount (pseudo args) vars;
  let args := set_pseudo (set_thresholds args (sv_thresholds vars)) pseudo in
  log2fc_params ← estimate_log2fc_params E args pseudo background;
  Done (args, log2fc_params).

(** Lines 669-696 *)
Definition bindetect_plots (no_conditions : nat) (comparisons : list (string * string))
    (TF_overlaps : list (string * string * Q)) : list Event :=
  if (1 <? no_conditions)%nat
  then EvDistanceMatrix (overlap_to_distance E TF_overlaps).2
       :: map (λ c, EvPlotBindetect c.1 c.2) comparisons
  else [].

(** The controller from the merged scan results on.  [names] are the names of
    the motifs in [motif_list] (forward and reverse), [background] and
    [TF_overlaps] the merged results of the scan. *)
Definition run_bindetect (args : Args) (names : list string) (background : Background)
    (TF_overlaps : list (string * string * Q)) : list Event * Outcome Result :=
  let no_conditions := length (signals args) in
  let comparisons := combinations2 (cond_names args) in
  let motif_names := list_set E names in
  let motif_names_predict := list_set E names in
  match fit_models args background with
  | Done (args, log2fc_params) =>
      let results := map (λ name, process_tfbs E name args log2fc_params) motif_names_predict in
      match results with
      | [] => ([], Raised "pd.concat")   (* line 623: nothing to concatenate *)
      | _ :: _ =>
          (map EvProcessTfbs motif_names_predict
             ++ [EvWriteResults results]
             ++ bindetect_plots no_conditions comparisons TF_overlaps,
           Done {| res_thresholds := thresholds args;
                   res_pseudo := pseudo args;
                   (* lines 623 and 661: the columns of the rows, after [TF_name] *)
                   res_columns := "TF_name" :: process_tfbs_columns (cond_names args);
                   res_table := results |})
      end
  | SysExit msg => ([], SysExit msg)
  | Raised call => ([], Raised call)
  end.

End Run.

(** ** The estimators as the specification words them *)

Section Specification.

Context (E : Env).

(** "Pick the model with the lower Bayesian Information Criterion score":
    [g] is the fit for one of the component counts [ns], and no fit for a
    count in [ns] has a lower BIC on [data]. *)
Definition lowest_bic (ns : list nat) (data : list (list Q)) (g : GaussianMixture) : Prop :=
  (∃ n, n ∈ ns ∧ gmm_fit E n data = Some g) ∧
  ∀ m g', m ∈ ns → gmm_fit E m data = Some g' → gmm_bic E g data <= gmm_bic E g' data.

(** "The component with the larger mean" of a mixture over one feature. *)
Definition larger_mean (g : GaussianMixture) (i : nat) : Prop :=
  ∃ m, concat (means_ g) !! i = Some m ∧
       ∀ j m', concat (means_ g) !! j = Some m' → m' <= m.

(** Steps 1-4 of the Threshold Estimator: the inverse CDF at
    [1 - bound_threshold] of the log-normal fitted to the values below their
    99th percentile, anchored at the chosen component. *)
Definition inverse_cdf_threshold (bound_threshold : Q) (values : list Q) (t : Q) : Prop :=
  ∃ p99 g i mean variance log_params,
    np_percentile E values 99 = Some p99 ∧
    lowest_bic [1; 2]%nat (reshape_col (map (np_log E) values)) g ∧
    larger_mean g i ∧
    concat (means_ g) !! i = Some mean ∧
    concat (concat (covariances_ g)) !! i = Some variance ∧
    lognorm_fit E (List.filter (λ v, if Qlt_le_dec v p99 then true else false) values)
      (np_sqrt E variance) (np_exp E mean) = Some log_params ∧
    t = lognorm_ppf E (1 - bound_threshold) log_params.

(** "Positions where not both signals are (near-)zero", each with its GC
    content. *)
Definition retained (scores1 scores2 gcs : list Q) : list (Q * Q * Q) :=
  List.filter (λ '(s1, s2, _), negb (Np.isclose0 s1 && Np.isclose0 s2))
    (zip (zip scores1 scores2) gcs).

(** "log2((signal_a + pseudocount) / (signal_b + pseudocount)) per retained
    position, paired with GC-content". *)
Definition null_points (pseudo : Q) (positions : list (Q * Q * Q)) : list (list Q) :=
  map (λ '(s1, s2, gc), [np_log2 E ((s1 + pseudo) / (s2 + pseudo)); gc]) positions.

(** The Differential Null Model of a pair of signal vectors. *)
Definition null_model (pseudo : Q) (scores1 scores2 gcs : list Q) (g : GaussianMixture) : Prop :=
  lowest_bic (seq 1 9) (null_points pseudo (retained scores1 scores2 gcs)) g.

End Specification.

(** What the loop variables [lowest_bic] and [best_gmm] hold after the
    component counts [seen]. *)
Definition selected (E : Env) (data : list (list Q)) (seen : list nat)
    (st : option Q * option GaussianMixture) : Prop :=
  match st with
  | (None, None) => seen = []
  | (Some lowest, Some g) =>
      lowest = gmm_bic E g data ∧
      (∃ n, n ∈ seen ∧ gmm_fit E n data = Some g) ∧
      ∀ m g', m ∈ seen → gmm_fit E m data = Some g' → gmm_bic E g data <= gmm_bic E g' data
  | _ => False
  end.

(** What is known of the collaborators. *)

(** scikit-learn validates the sample before fitting and raises [ValueError]
    on an array without rows. *)
Definition fit_rejects_empty (E : Env) : Prop := ∀ n, gmm_fit E n [] = None.

(** An inverse cumulative distribution function does not decrease. *)
Definition ppf_monotone (E : Env) : Prop :=
  ∀ log_params q1 q2, q1 <= q2 → lognorm_ppf E q1 log_params <= lognorm_ppf E q2 log_params.

(** [list(set(l))] has the elements of [l], each once. *)
Definition list_set_distinct (E : Env) : Prop :=
  ∀ l, NoDup (list_set E l) ∧ ∀ x, x ∈ list_set E l ↔ x ∈ l.

(** A message names a condition when the name occurs in it. *)
Definition names_condition (msg cond : string) : Prop :=
  ∃ before after, msg = before +:+ cond +:+ after.

(** A column name of the form [*suffix]. *)
Definition ends_with (suffix s : string) : Prop := ∃ stem, s = stem +:+ suffix.

(** The steps that belong to the distance matrix and the BINDetect plots. *)
Definition is_distance_step (ev : Event) : Prop :=
  match ev with
  | EvDistanceMatrix _ | EvPlotBindetect _ _ => True
  | _ => False
  end.

(** ** A small executable environment

    Rational stand-ins for the collaborators, used to run the pipeline on
    concrete inputs: first-order expansions for the transcendental functions,
    numpy's linear-interpolation percentile, a moment-based mixture "fit" that
    rejects samples of fewer than two rows, a location-scale family for the
    log-normal and a grid search for [fmin]. *)

Module Stub.

Fixpoint insert_sorted (x : Q) (l : list Q) : list Q :=
  match l with
  | [] => [x]
  | y :: l' => if Qle_bool x y then x :: l else y :: insert_sorted x l'
  end.

Definition sort (l : list Q) : list Q := foldr insert_sorted [] l.

Definition percentile (a : list Q) (q : Q) : option Q :=
  let s := sort a in
  let idx := inject_Z (Z.of_nat (length s - 1)) * q / 100 in
  let lo := Z.to_nat (Qfloor idx) in
  v_lo ← s !! lo;
  Some (match s !! S lo with
        | Some v_hi => Qred (v_lo + (idx - inject_Z (Qfloor idx)) * (v_hi - v_lo))
        | None => v_lo
        end).

(** The mean of every column of a 2-D array. *)
Definition column_means (data : list (list Q)) : list Q :=
  match data with
  | [] => []
  | row :: _ =>
      map (λ j, Qred (Np.mean (omap (λ r : list Q, r !! j) data))) (seq 0 (length row))
  end.

(** Component [k] sits [k] above the column means. *)
Definition fit (n : nat) (data : list (list Q)) : option GaussianMixture :=
  if ((length data <? 2) || (length data <? n))%nat then None
  else
    let mu := column_means data in
    Some {| n_components := n;
            weights_ := replicate n (Qred (1 / inject_Z (Z.of_nat n)));
            means_ := map (λ k, map (λ m, Qred (m + inject_Z (Z.of_nat k))) mu) (seq 0 n);
            covariances_ := replicate n [[1]] |}.

Definition sq_dist (row mu : list Q) : Q :=
  Np.sum (zip_with (λ x m, (x - m) * (x - m)) row mu).

Definition nearest (row : list Q) (mus : list (list Q)) : Q :=
  match map (sq_dist row) mus with
  | [] => 0
  | d :: ds => foldr Qmin d ds
  end.

(** Squared distance to the nearest component plus two per component. *)
Definition bic (g : GaussianMixture) (data : list (list Q)) : Q :=
  Qred (Np.sum (map (λ row, nearest row (means_ g)) data)
        + 2 * inject_Z (Z.of_nat (n_components g))).

Definition lognorm_fit' (data : list Q) (f0 fscale : Q) : option LogParams :=
  match data with
  | [] => None
  | _ => Some (f0, 0, fscale)
  end.

(** Median [loc + scale]; increasing in [q]. *)
Definition lognorm_ppf' (q : Q) (log_params : LogParams) : Q :=
  let '(s, loc, scale) := log_params in
  Qred (loc + Qabs scale * (1 + Qabs s * (2 * q - 1))).

(** Peaked at [loc + scale / 2]. *)
Definition lognorm_pdf' (x : Q) (log_params : LogParams) : Q :=
  let '(s, loc, scale) := log_params in
  Qred (1 - (x - loc - scale / 2) * (x - loc - scale / 2)).

(** The best point of the grid x0, x0 + 1/4, ..., x0 + 10. *)
Definition fmin' (f : Q → Q) (x0 : Q) : Q :=
  foldr (λ x best, if Qlt_le_dec (f x) (f best) then x else best) x0
    (map (λ k, Qred (x0 + inject_Z (Z.of_nat k) / 4)) (seq 0 41)).

Definition process_tfbs' (name : string) (args : Args)
    (log2fc_params : gmap (string * string) GaussianMixture) : Row :=
  (name, map (λ cond, default 0 (thresholds args !! cond)) (cond_names args)).

Definition overlap_to_distance' (TF_overlaps : list (string * string * Q))
    : list (list Q) * list string :=
  let names := remove_dups (map (λ o, o.1.1) TF_overlaps) in
  (map (λ _, map (λ _, 0) names) names, names).

(** The environment whose sets iterate in the order of first insertion. *)
Definition env : Env :=
  {| np_log := λ x, x - 1;
     np_log2 := λ x, x - 1;
     np_exp := λ x, x + 1;
     np_sqrt := λ x, (x + 1) / 2;
     np_percentile := percentile;
     gmm_fit := fit;
     gmm_bic := bic;
     lognorm_fit := lognorm_fit';
     lognorm_ppf := lognorm_ppf';
     lognorm_pdf := lognorm_pdf';
     fmin := fmin';
     list_set := remove_dups;
     process_tfbs := process_tfbs';
     overlap_to_distance := overlap_to_distance' |}.

(** The same collaborators under another hash seed: the sets iterate in the
    opposite order. *)
Definition env_reversed : Env :=
  {| np_log := np_log env; np_log2 := np_log2 env; np_exp := np_exp env;
     np_sqrt := np_sqrt env; np_percentile := percentile;
     gmm_fit := fit; gmm_bic := bic;
     lognorm_fit := lognorm_fit';
     lognorm_ppf := lognorm_ppf';
     lognorm_pdf := lognorm_pdf';
     fmin := fmin';
     list_set := λ l, reverse (remove_dups l);
     process_tfbs := process_tfbs';
     overlap_to_distance := overlap_to_distance' |}.

Definition args_of (conds : list string) (bound : Q) (p : option Q) : Args :=
  {| signals := map (λ c, c +:+ ".bw") conds; cond_names := conds;
     bound_threshold := bound; pseudo := p; thresholds := ∅; cores := 1 |}.

(** Two conditions sampled at eleven background positions; both signals are
    zero at the fourth. *)
Definition background_AB : Background :=
  {| bg_signal := {[ "A" := [1; 2; 5; 0; 3; 4; 2; 6; 1; 3; 2];
                     "B" := [2; 0; 3; 0; 1; 5; 2; 4; 3; 1; 2] ]};
     bg_gc := [1 # 2; 1 # 3; 2 # 5; 1 # 2; 3 # 5; 1 # 2; 2 # 5; 1 # 2; 3 # 5; 1 # 2; 2 # 5] |}.

(** Two conditions without any signal. *)
Definition background_zero : Background :=
  {| bg_signal := {[ "A" := [0; 0; 0]; "B" := [0; 0; 0] ]};
     bg_gc := [1 # 2; 1 # 3; 2 # 5] |}.

End Stub.

(** ** Further parts of the file *)

(** Line 148: [worker_cores = max(1, args.cores - 1)]; [--cores] is any
    integer. *)
Definition worker_cores (cores : Z) : Z := Z.max 1 (cores - 1).

(** Line 355: [if worker_cores == 1], the chunks are scanned by the
    controller itself. *)
Definition scan_in_controller (cores : Z) : bool := (worker_cores cores =? 1)%Z.

(** Line 613: [if args.cores == 1], the TFs are processed by the controller
    itself. *)
Definition tfbs_in_controller (cores : Z) : bool := (cores =? 1)%Z.

(** Lines 115-126: the patterns of the output files; [path] stands for
    [os.path.abspath(os.path.join(...))]. *)
Definition outfiles (path : list string → string) (outdir : string)
    (cond_names : list string) : list string :=
  map (λ '(condition, state),
         path [outdir; "*"; "beds"; "*_" +:+ condition +:+ "_" +:+ state +:+ ".bed"])
      (product cond_names ["bound"; "unbound"])
  ++ [path [outdir; "*"; "beds"; "*_all.bed"]]
  ++ [path [outdir; "*"; "plots"; "*_log2fcs.pdf"]]
  ++ [path [outdir; "*"; "*_overview.txt"]]
  ++ [path [outdir; "*"; "*_overview.xlsx"]]
  ++ [path [outdir; "TF_distance_matrix.txt"]]
  ++ [path [outdir; "bindetect_results.txt"]]
  ++ [path [outdir; "bindetect_results.xlsx"]]
  ++ [path [outdir; "bindetect_figures.pdf"]].

(** Python's [l[-n:]] for a positive [n]. *)
Definition py_last {A : Type} (n : nat) (l : list A) : list A := drop (length l - n) l.

(** Line 168: [check_files(outfiles[-3:], action="w")] *)
Definition checked_for_writing (path : list string → string) (outdir : string)
    (cond_names : list string) : list string :=
  py_last 3 (outfiles path outdir cond_names).

(** Lines 184-192: the titles listed on the first page of the figures. *)
Definition figure_titles (cond_names : list string) (comparisons : list (string * string))
    : list string :=
  map (λ cond, "Score distribution of " +:+ cond +:+ " scores") cond_names
  ++ map (λ '(cond1, cond2), "Background log2FCs (" +:+ cond1 +:+ " / " +:+ cond2 +:+ ")")
         comparisons
  ++ map (λ '(cond1, cond2), "BINDetect plot (" +:+ cond1 +:+ " / " +:+ cond2 +:+ ")")
         comparisons.

(** [np.array(pfm).shape] unpacked into two names: a list of equally long
    rows has a shape (rows, cols); an empty or a ragged list has not. *)
Definition np_shape2 (pfm : list (list Q)) : option (nat * nat) :=
  match pfm with
  | [] => None
  | row :: rows =>
      if forallb (λ r, (length r =? length row)%nat) rows
      then Some (length pfm, length row)
      else None
  end.

(** The message of line 255; its [{0}] is never filled in. *)
Definition motif_format_message : string :=
  "ERROR: Motif {0} has an unexpected format and could not be read - please check that the input --motifs file is in either JASPAR/PFM/MEME format.".

(** Lines 252-255: the check of every motif's matrix. *)
Definition check_motif (_ : unit) (pfm : list (list Q)) : Outcome unit :=
  '(rows, cols) ← call "rows, cols = np.array(motif.pfm).shape" (np_shape2 pfm);
  if (rows =? 4)%nat then Done () else SysExit motif_format_message.

Definition check_motif_format (pfms : list (list (list Q))) : Outcome unit :=
  for_each check_motif pfms ().

(** Lines 452-454 ([args.debug] only): [for i in range(2): pdf =
    scipy.stats.norm.pdf(x, means[i], sds[i])]. *)
Definition debug_plot_component (means sds : list Q) (_ : unit) (i : nat) : Outcome unit :=
  _ ← call "means[i]" (means !! i);
  _ ← call "sds[i]" (sds !! i);
  Done ().

Definition debug_plot_mixture (means sds : list Q) : Outcome unit :=
  for_each (debug_plot_component means sds) (seq 0 2) ().

(** What [lowest_bic] and [best_gmm] hold after the component counts [seen],
    with the position of the count that was kept: every earlier count has a
    strictly larger BIC, every count a BIC that is not smaller. *)
Definition selected_first (E : Env) (data : list (list Q)) (seen : list nat)
    (st : option Q * option GaussianMixture) : Prop :=
  match st with
  | (None, None) => seen = []
  | (Some lowest, Some g) =>
      lowest = gmm_bic E g data ∧
      ∃ i n, seen !! i = Some n ∧ gmm_fit E n data = Some g ∧
        (∀ j m g', (j < i)%nat → seen !! j = Some m → gmm_fit E m data = Some g' →
                   gmm_bic E g data < gmm_bic E g' data) ∧
        (∀ j m g', seen !! j = Some m → gmm_fit E m data = Some g' →
                   gmm_bic E g data <= gmm_bic E g' data)
  | _ => False
  end.

(** * Properties *)

(** ** GC background *)

Lemma sum_scaled (c : Q) (xs : list Q) :
  Np.sum (map (λ x, x * c) xs) == Np.sum xs * c.
Proof.
  induction xs as [|x xs IH]; simpl.
  - ring.
  - rewrite IH. ring.
Qed.

(** C10. The GC fraction is the mean of the per-chunk fractions with the same
    weight 1/n for every chunk, whatever its size, and the background vector
    built from it sums to one, with C and G sharing one weight and A and T
    the other. *)
Theorem gc_background_composition (gc_content_pool : list Q) :
  gc_content_pool ≠ [] →
  let n := inject_Z (Z.of_nat (length gc_content_pool)) in
  let gc := gc_content gc_content_pool in
  gc == Np.sum (map (λ chunk_gc, chunk_gc * (1 / n)) gc_content_pool) ∧
  gc * n == Np.sum gc_content_pool ∧
  bg gc = [(1 - gc) / 2; gc / 2; gc / 2; (1 - gc) / 2] ∧
  Np.sum (bg gc) == 1 ∧
  bg gc !! 1%nat = bg gc !! 2%nat ∧
  bg gc !! 0%nat = bg gc !! 3%nat.
Proof.
  intros Hne n gc.
  assert (Hn : ¬ n == 0).
  { subst n. destruct gc_content_pool as [|x xs]; [done|].
    intros H. unfold Qeq in H. simpl in H. lia. }
  repeat split.
  - rewrite sum_scaled. subst gc. unfold gc_content, Np.mean. fold n. field. exact Hn.
  - subst gc. unfold gc_content, Np.mean. fold n. field. exact Hn.
  - unfold bg, Np.sum. simpl. field.
Qed.

Lemma gc_background_composition_witness :
  gc_content [1 # 2; 1 # 4] == 3 # 8 ∧ Np.sum (bg (gc_content [1 # 2; 1 # 4])) == 1.
Proof.
  pose proof (gc_background_composition [1 # 2; 1 # 4] ltac:(discriminate)) as H.
  simpl in H. destruct H as (_ & H2 & _ & H4 & _).
  split; [|exact H4].
  rewrite <- (Qmult_inj_r _ _ (inject_Z 2)); [|discriminate].
  rewrite H2. reflexivity.
Defined.

(** ** Writer queues *)

Section RoundRobin.

Context {A : Type}.

(** The slice [l[k::w]] holds the elements at k, k + w, k + 2w, ... *)
Lemma slice_step_lookup (l : list A) (k w j : nat) :
  (0 < w)%nat → slice_step l k w !! j = l !! (k + j * w)%nat.
Proof.
  intros Hw. revert k j.
  induction l as [|x l IH]; intros k j; [done|].
  destruct k as [|k].
  - destruct j as [|j]; [done|].
    replace (0 + S j * w)%nat with (S (w - 1 + j * w)) by lia.
    simpl. apply IH.
  - simpl. apply IH.
Qed.

Lemma elem_of_slice_step (l : list A) (k w : nat) (x : A) :
  (0 < w)%nat → x ∈ slice_step l k w ↔ ∃ j, l !! (k + j * w)%nat = Some x.
Proof.
  intros Hw. rewrite list_elem_of_lookup.
  split; intros [j Hj]; exists j.
  - by rewrite <- slice_step_lookup.
  - by rewrite slice_step_lookup.
Qed.

End RoundRobin.

Lemma TF_names_chunks_lookup (l : list string) (w i : nat) (sub : list string) :
  TF_names_chunks l w !! i = Some sub ↔ (i < w)%nat ∧ sub = slice_step l i w.
Proof.
  unfold TF_names_chunks. rewrite list_lookup_fmap.
  destruct (decide (i < w)%nat) as [Hi|Hi].
  - rewrite lookup_seq_lt by done. simpl. split.
    + intros [= <-]. done.
    + intros [_ ->]. done.
  - rewrite lookup_seq_ge by lia. simpl. split; [done | intros [? _]; lia].
Qed.

Lemma assign_chunk_lookup (qs : gmap string nat) (q : nat) (sub : list string) (TF : string) :
  assign_chunk qs q sub !! TF = if decide (TF ∈ sub) then Some q else qs !! TF.
Proof.
  unfold assign_chunk. revert qs.
  induction sub as [|x sub IH]; intros qs.
  - rewrite decide_False; [done | apply not_elem_of_nil].
  - cbn [foldl]. rewrite IH. destruct (decide (TF ∈ sub)) as [Hin|Hin].
    + rewrite decide_True; [done | by right].
    + destruct (decide (x = TF)) as [->|Hne].
      * rewrite decide_True by left. apply lookup_insert_eq.
      * rewrite decide_False by (intros [?|?]%elem_of_cons; [congruence | done]).
        by apply lookup_insert_ne.
Qed.

Lemma assign_queues_absent (chunks : list (list string)) (qs : gmap string nat) (q0 : nat)
    (TF : string) :
  (∀ sub, sub ∈ chunks → TF ∉ sub) →
  assign_queues qs q0 chunks !! TF = qs !! TF.
Proof.
  revert qs q0. induction chunks as [|sub chunks IH]; intros qs q0 Habs; [done|].
  simpl. rewrite IH.
  - rewrite assign_chunk_lookup, decide_False; [done|]. apply Habs. by left.
  - intros sub' Hsub'. apply Habs. by right.
Qed.

Lemma assign_queues_unique (chunks : list (list string)) (qs : gmap string nat) (q0 i : nat)
    (sub : list string) (TF : string) :
  chunks !! i = Some sub → TF ∈ sub →
  (∀ j sub', chunks !! j = Some sub' → TF ∈ sub' → j = i) →
  assign_queues qs q0 chunks !! TF = Some (q0 + i)%nat.
Proof.
  revert qs q0 i. induction chunks as [|c chunks IH]; intros qs q0 i Hi Hin Huniq; [done|].
  destruct i as [|i]; simpl in *.
  - simplify_eq. rewrite assign_queues_absent.
    + rewrite assign_chunk_lookup, decide_True by done. f_equal. lia.
    + intros sub' [j Hj]%list_elem_of_lookup Hin'.
      by specialize (Huniq (S j) sub' Hj Hin').
  - rewrite (IH _ _ i); [f_equal; lia | done | done |].
    intros j sub' Hj Hin'. by specialize (Huniq (S j) sub' Hj Hin') as [= ->].
Qed.

(** C8. With sets that hold each name once, every TF name that is predicted
    sits in the chunk of exactly one writer, and [qs] sends it to the queue
    of that writer. *)
Theorem round_robin_partition (E : Env) (names : list string) (w : nat) (TF : string) :
  list_set_distinct E → (0 < w)%nat →
  let motif_names_predict := list_set E names in
  TF ∈ motif_names_predict →
  ∃ q, (q < w)%nat ∧
    (∀ i TF_names_sub, TF_names_chunks motif_names_predict w !! i = Some TF_names_sub →
       (TF ∈ TF_names_sub ↔ i = q)) ∧
    writer_queues motif_names_predict w !! TF = Some q.
Proof.
  intros Hset Hw l Hin.
  destruct (Hset names) as [Hnd _]. fold l in Hnd.
  apply list_elem_of_lookup in Hin as [p Hp].
  assert (Hchunk : ∀ i sub, TF_names_chunks l w !! i = Some sub →
                            (TF ∈ sub ↔ i = (p mod w)%nat)).
  { intros i sub [Hi ->]%TF_names_chunks_lookup.
    rewrite elem_of_slice_step by done. split.
    - intros [j Hj]. pose proof (NoDup_lookup _ _ _ _ Hnd Hj Hp) as <-.
      rewrite Nat.Div0.mod_add. symmetry. by apply Nat.mod_small.
    - intros ->. exists (p / w)%nat.
      replace (p mod w + p / w * w)%nat with p; [done|].
      rewrite (Nat.div_mod_eq p w) at 1. lia. }
  assert (Hq : (p mod w < w)%nat) by (apply Nat.mod_upper_bound; lia).
  exists (p mod w)%nat. split; [done|]. split; [done|].
  unfold writer_queues.
  assert (Hsub : TF_names_chunks l w !! (p mod w)%nat = Some (slice_step l (p mod w) w))
    by (by apply TF_names_chunks_lookup).
  rewrite (assign_queues_unique _ _ _ (p mod w)%nat _ TF Hsub); [done | |].
  - by apply (Hchunk _ _ Hsub).
  - intros j sub' Hj Hin'. by apply (Hchunk _ _ Hj).
Qed.

Lemma remove_dups_distinct : list_set_distinct Stub.env.
Proof.
  intros l. split; [apply NoDup_remove_dups | intros x; apply elem_of_remove_dups].
Qed.

Lemma round_robin_partition_witness :
  ∃ q, (q < writer_cores)%nat ∧
    (∀ i TF_names_sub,
       TF_names_chunks (list_set Stub.env ["CTCF"; "SP1"; "CTCF"]) writer_cores !! i
         = Some TF_names_sub → ("SP1" ∈ TF_names_sub ↔ i = q)) ∧
    writer_queues (list_set Stub.env ["CTCF"; "SP1"; "CTCF"]) writer_cores !! "SP1" = Some q.
Proof.
  apply (round_robin_partition Stub.env ["CTCF"; "SP1"; "CTCF"] writer_cores "SP1").
  - exact remove_dups_distinct.
  - unfold writer_cores. lia.
  - vm_compute. apply list_elem_of_In. simpl. tauto.
Defined.

(** ** One condition *)

Lemma list_ascii_app (s1 s2 : string) :
  Strings.String.list_ascii_of_string (s1 +:+ s2) = Strings.String.list_ascii_of_string s1 ++ Strings.String.list_ascii_of_string s2.
Proof. induction s1 as [|c s1 IH]; simpl; [done | by rewrite IH]. Qed.

(** A name that ends in [suffix] reads, backwards, as the reversed suffix
    followed by the reversed stem. *)
Lemma ends_with_rev (suffix s : string) :
  ends_with suffix s →
  ∃ stem, rev (Strings.String.list_ascii_of_string s) = rev (Strings.String.list_ascii_of_string suffix) ++ stem.
Proof.
  intros [stem ->]. exists (rev (Strings.String.list_ascii_of_string stem)).
  by rewrite list_ascii_app, rev_app_distr.
Qed.

Ltac refute_suffix :=
  let stem := fresh "stem" in
  let H := fresh "H" in
  intros [stem H]%ends_with_rev;
  rewrite ?list_ascii_app, ?rev_app_distr in H;
  simpl in H; discriminate H.

Lemma condition_column_not_comparison (cond metric : string) :
  metric ∈ ["threshold"; "bound"] →
  ¬ ends_with "_change" (cond +:+ "_" +:+ metric) ∧
  ¬ ends_with "_pvalue" (cond +:+ "_" +:+ metric).
Proof.
  rewrite !elem_of_cons, elem_of_nil.
  intros [-> | [-> | []]]; split; refute_suffix.
Qed.

Lemma combinations2_singleton {A : Type} (xs : list A) :
  length xs = 1%nat → combinations2 xs = [].
Proof. destruct xs as [|x [|y xs]]; simpl; [done | done | lia]. Qed.

Lemma columns_without_comparisons (cond_names : list string) (col : string) :
  col ∈ info_columns cond_names [] →
  ¬ ends_with "_change" col ∧ ¬ ends_with "_pvalue" col.
Proof.
  unfold info_columns. simpl. rewrite app_nil_r.
  intros [-> | H]%elem_of_cons; [split; refute_suffix|].
  apply list_elem_of_fmap in H as ([cond metric] & -> & Hin).
  unfold product in Hin. apply list_elem_of_bind in Hin as (c & Hin & _).
  apply list_elem_of_fmap in Hin as (m & [= -> ->] & Hm).
  by apply condition_column_not_comparison.
Qed.

(** The fitted models leave the condition names of [args] as they are. *)
Lemma fit_models_cond_names (E : Env) (args args' : Args) (background : Background)
    (log2fc_params : gmap (string * string) GaussianMixture) :
  fit_models E args background = Done (args', log2fc_params) →
  cond_names args' = cond_names args.
Proof.
  unfold fit_models. intros Hfit.
  destruct (estimate_scores E args background) as [vars| |]; simpl in Hfit; [|done|done].
  destruct (estimate_pseudocount (pseudo args) vars) as [p| |]; simpl in Hfit; [|done|done].
  destruct (estimate_log2fc_params E _ p background) as [m| |]; simpl in Hfit; [|done|done].
  by injection Hfit as <- _.
Qed.

(** C7. With one signal and one condition name there is no comparison: the
    rows of [process_tfbs], and with them the table that is written, have no
    [_change] or [_pvalue] column (nor has the header that the controller
    prepares), no column is reformatted as one, and the run neither computes
    nor writes the distance matrix. *)
Theorem single_condition_run (E : Env) (args : Args) (names : list string)
    (background : Background) (TF_overlaps : list (string * string * Q)) :
  length (signals args) = 1%nat → length (cond_names args) = 1%nat →
  let comparisons := combinations2 (cond_names args) in
  let run := run_bindetect E args names background TF_overlaps in
  comparisons = [] ∧
  (∀ col, col ∈ process_tfbs_columns (cond_names args) →
     ¬ ends_with "_change" col ∧ ¬ ends_with "_pvalue" col) ∧
  (∀ r col, run.2 = Done r → col ∈ res_columns r →
     ¬ ends_with "_change" col ∧ ¬ ends_with "_pvalue" col) ∧
  (∀ col, col ∈ info_columns (cond_names args) comparisons →
     ¬ ends_with "_change" col ∧ ¬ ends_with "_pvalue" col) ∧
  formatted_columns comparisons = [] ∧
  bindetect_plots E (length (signals args)) comparisons TF_overlaps = [] ∧
  ∀ ev, ev ∈ run.1 → ¬ is_distance_step ev.
Proof.
  intros Hsig Hcond comparisons run.
  assert (Hcmp : comparisons = []) by (by apply combinations2_singleton).
  assert (Hplots : bindetect_plots E (length (signals args)) comparisons TF_overlaps = []).
  { unfold bindetect_plots. by rewrite Hsig. }
  assert (Hrows : ∀ col, col ∈ process_tfbs_columns (cond_names args) →
                         ¬ ends_with "_change" col ∧ ¬ ends_with "_pvalue" col).
  { intros col Hcol. apply (columns_without_comparisons (cond_names args)).
    change (col ∈ info_columns (cond_names args) (combinations2 (cond_names args))) in Hcol.
    fold comparisons in Hcol. by rewrite Hcmp in Hcol. }
  split; [done|]. split; [done|]. split; [|split; [|split; [|split; [done|]]]].
  - intros r col Hrun Hcol. subst run. unfold run_bindetect in Hrun.
    destruct (fit_models E args background) as [[args' params]|msg|c] eqn:Hfit;
      simpl in Hrun; [|done|done].
    apply fit_models_cond_names in Hfit.
    destruct (map _ (list_set E names)) as [|row rows]; simpl in Hrun; [done|].
    injection Hrun as <-. simpl in Hcol. rewrite Hfit in Hcol.
    apply elem_of_cons in Hcol as [->|Hcol]; [split; refute_suffix | by apply Hrows].
  - intros col Hcol. rewrite Hcmp in Hcol.
    by apply (columns_without_comparisons (cond_names args)).
  - by rewrite Hcmp.
  - subst run. unfold run_bindetect.
    destruct (fit_models E args background) as [[args' params]|msg|c];
      simpl; [|by intros ev ?%elem_of_nil..].
    destruct (map _ (list_set E names)) as [|row rows] eqn:Hresults;
      simpl; [by intros ev ?%elem_of_nil|].
    fold comparisons. rewrite Hplots.
    intros ev [Hev|Hev]%elem_of_app.
    + apply list_elem_of_fmap in Hev as (name & -> & _). simpl. tauto.
    + apply list_elem_of_singleton in Hev as ->. simpl. tauto.
Qed.

Lemma single_condition_run_witness :
  let args := Stub.args_of ["A"] (2 # 5) None in
  let run := run_bindetect Stub.env args ["CTCF"; "SP1"] Stub.background_AB [] in
  combinations2 (cond_names args) = [] ∧
  (∀ col, col ∈ process_tfbs_columns (cond_names args) →
     ¬ ends_with "_change" col ∧ ¬ ends_with "_pvalue" col) ∧
  ∀ ev, ev ∈ run.1 → ¬ is_distance_step ev.
Proof.
  intros args run.
  destruct (single_condition_run Stub.env args ["CTCF"; "SP1"] Stub.background_AB []
              eq_refl eq_refl) as (H1 & H2 & _ & _ & _ & _ & H7).
  split; [assumption|]. split; assumption.
Defined.

(** ** Pseudocount *)

Section Pseudocount.

Context (E : Env).

(** After every iteration the variable [pseudo] holds the candidate that was
    appended last. *)
Lemma estimate_scores_pseudo (bound_threshold : Q) (background : Background)
    (conds : list string) (vars0 vars : ScoreVars) :
  sv_pseudo vars0 = last (sv_pseudos vars0) →
  for_each (score_step E bound_threshold background) conds vars0 = Done vars →
  sv_pseudo vars = last (sv_pseudos vars) ∧
  length (sv_pseudos vars) = (length (sv_pseudos vars0) + length conds)%nat.
Proof.
  revert vars0. induction conds as [|bigwig conds IH]; intros vars0 H0 Hrun.
  - simpl in Hrun. injection Hrun as <-. split; [done | simpl; lia].
  - simpl in Hrun.
    destruct (score_step E bound_threshold background vars0 bigwig) as [vars1| |] eqn:Hstep;
      simpl in Hrun; [|done|done].
    unfold score_step in Hstep.
    destruct (estimate_condition E bound_threshold background bigwig) as [[t p]| |];
      simpl in Hstep; [|done|done].
    injection Hstep as <-.
    apply IH in Hrun as [Hlast Hlen].
    + split; [done|]. rewrite Hlen. simpl. rewrite length_app. simpl. lia.
    + simpl. by rewrite last_snoc.
Qed.

End Pseudocount.

(** C2. What the code assigns when no pseudocount is configured: the
    candidate of the last condition, because the argument of [np.mean] is the
    variable [pseudo] and not the list [pseudos]. *)
Theorem pseudocount_is_last_candidate (E : Env) (args : Args) (background : Background)
    (vars : ScoreVars) (p : Q) :
  pseudo args = None →
  estimate_scores E args background = Done vars →
  estimate_pseudocount (pseudo args) vars = Done p →
  length (sv_pseudos vars) = length (cond_names args) ∧
  ∃ candidate, last (sv_pseudos vars) = Some candidate ∧ p == candidate.
Proof.
  intros Hnone Hscores Hp. unfold estimate_scores in Hscores.
  apply estimate_scores_pseudo in Hscores as [Hlast Hlen]; [|done].
  split; [done|]. rewrite Hnone in Hp. simpl in Hp. rewrite <- Hlast.
  destruct (sv_pseudo vars) as [c|]; simpl in Hp; [|done].
  injection Hp as <-. exists c. split; [done|].
  unfold Np.mean, Np.sum. simpl. field.
Qed.

(** Two conditions whose candidates are 1 and 7/8: the pseudocount is 7/8,
    their mean is 15/16. *)
Lemma pseudocount_is_last_candidate_witness :
  ∃ vars p,
    estimate_scores Stub.env (Stub.args_of ["A"; "B"] (1 # 2) None) Stub.background_AB
      = Done vars ∧
    estimate_pseudocount None vars = Done p ∧
    sv_pseudos vars = [2 # 2; 7 # 8] ∧
    p == 7 # 8 ∧ Np.mean (sv_pseudos vars) == 15 # 16 ∧ ¬ p == Np.mean (sv_pseudos vars).
Proof.
  set (args := Stub.args_of ["A"; "B"] (1 # 2) None).
  destruct (estimate_scores Stub.env args Stub.background_AB) as [vars| |] eqn:Hvars;
    [|by vm_compute in Hvars..].
  destruct (estimate_pseudocount None vars) as [p| |] eqn:Hp.
  - destruct (pseudocount_is_last_candidate Stub.env args Stub.background_AB vars p
                eq_refl Hvars Hp) as (_ & c & Hc & Hpc).
    exists vars, p.
    assert (Hps : sv_pseudos vars = [2 # 2; 7 # 8])
      by (vm_compute in Hvars; by injection Hvars as <-).
    rewrite Hps in *. injection Hc as <-.
    split; [done|]. split; [done|]. split; [done|].
    split; [exact Hpc|]. split; [reflexivity|].
    rewrite Hpc. intros Heq. discriminate Heq.
  - exfalso. vm_compute in Hvars. injection Hvars as <-. by vm_compute in Hp.
  - exfalso. vm_compute in Hvars. injection Hvars as <-. by vm_compute in Hp.
Defined.

(** ** Model selection by BIC *)

Section ModelSelection.

Context (E : Env) (data : list (list Q)).

Lemma try_components_selected (seen : list nat) (n : nat)
    (st st' : option Q * option GaussianMixture) :
  selected E data seen st → try_components E data st n = Done st' → selected E data (seen ++ [n]) st'.
Proof.
  unfold try_components. intros Hsel Hstep.
  destruct (gmm_fit E n data) as [gmm|] eqn:Hfit; simpl in Hstep; [|done].
  destruct st as [[lowest|] [g|]]; simpl in Hsel; try done.
  - destruct Hsel as (-> & (k & Hk & Hg) & Hmin). simpl in Hstep.
    destruct (Qlt_le_dec (gmm_bic E gmm data) (gmm_bic E g data)) as [Hlt|Hle];
      injection Hstep as <-; simpl.
    + split; [done|]. split.
      * exists n. split; [apply elem_of_app; right; by left | done].
      * intros m g' [Hm|Hm%list_elem_of_singleton]%elem_of_app Hg'.
        -- apply Qle_trans with (gmm_bic E g data); [by apply Qlt_le_weak | by eapply Hmin].
        -- subst m. rewrite Hfit in Hg'. injection Hg' as <-. apply Qle_refl.
    + split; [done|]. split.
      * exists k. split; [apply elem_of_app; by left | done].
      * intros m g' [Hm|Hm%list_elem_of_singleton]%elem_of_app Hg'.
        -- by eapply Hmin.
        -- subst m. rewrite Hfit in Hg'. by injection Hg' as <-.
  - subst seen. simpl in Hstep. injection Hstep as <-. simpl.
    split; [done|]. split.
    + exists n. split; [by left | done].
    + intros m g' Hm%list_elem_of_singleton Hg'. subst m.
      rewrite Hfit in Hg'. injection Hg' as <-. apply Qle_refl.
Qed.

Lemma for_each_selected (ns seen : list nat) (st st' : option Q * option GaussianMixture) :
  selected E data seen st → for_each (try_components E data) ns st = Done st' →
  selected E data (seen ++ ns) st'.
Proof.
  revert seen st. induction ns as [|n ns IH]; intros seen st Hsel Hrun; simpl in Hrun.
  - injection Hrun as <-. by rewrite app_nil_r.
  - destruct (try_components E data st n) as [st1| |] eqn:Hstep; simpl in Hrun; [|done|done].
    rewrite (assoc_L (++) seen [n] ns : seen ++ n :: ns = (seen ++ [n]) ++ ns).
    eapply IH; [|done]. by eapply try_components_selected.
Qed.

(** The loop completes exactly when every fit does. *)
Lemma for_each_try_total (ns : list nat) (st : option Q * option GaussianMixture) :
  (∀ n, n ∈ ns → is_Some (gmm_fit E n data)) →
  ∃ st', for_each (try_components E data) ns st = Done st'.
Proof.
  revert st. induction ns as [|n ns IH]; intros st Hfits; simpl.
  - by eexists.
  - destruct (Hfits n ltac:(by left)) as [gmm Hfit].
    assert (Hstep : ∃ st1, try_components E data st n = Done st1).
    { unfold try_components. rewrite Hfit. simpl. destruct (bic_lt _ _); by eexists. }
    destruct Hstep as [st1 ->]. simpl.
    apply IH. intros m Hm. apply Hfits. by right.
Qed.

(** The mixture that the loop leaves in [best_gmm] has the lowest BIC among
    the fits for the component counts tried. *)
Lemma best_gmm_over_lowest (ns : list nat) (g : GaussianMixture) :
  best_gmm_over E ns data = Done g → lowest_bic E ns data g.
Proof.
  unfold best_gmm_over. intros Hbest.
  destruct (for_each (try_components E data) ns (None, None)) as [st| |] eqn:Hrun;
    simpl in Hbest; [|done|done].
  apply (for_each_selected ns []) in Hrun; [|done].
  destruct st as [[lowest|] [g'|]]; simpl in *; try done.
  injection Hbest as ->. destruct Hrun as (_ & Hn & Hmin). by split.
Qed.

Lemma best_gmm_over_total (ns : list nat) :
  ns ≠ [] → (∀ n, n ∈ ns → is_Some (gmm_fit E n data)) →
  ∃ g, best_gmm_over E ns data = Done g.
Proof.
  intros Hne Hfits. unfold best_gmm_over.
  destruct (for_each_try_total ns (None, None) Hfits) as [st Hrun].
  rewrite Hrun. simpl.
  apply (for_each_selected ns []) in Hrun; [|done].
  destruct st as [[lowest|] [g|]]; simpl in *; try done.
  by exists g.
Qed.

(** A fit that raises ends the loop. *)
Lemma best_gmm_over_raises (n : nat) (ns : list nat) :
  gmm_fit E n data = None →
  best_gmm_over E (n :: ns) data = Raised "GaussianMixture.fit".
Proof. intros Hfit. unfold best_gmm_over. simpl. unfold try_components. by rewrite Hfit. Qed.

(** Neither loop calls [sys.exit]. *)
Lemma best_gmm_over_no_exit (ns : list nat) (msg : string) :
  best_gmm_over E ns data ≠ SysExit msg.
Proof.
  unfold best_gmm_over.
  assert (H : ∀ st, for_each (try_components E data) ns st ≠ SysExit msg).
  { induction ns as [|n ns IH]; intros st; simpl; [done|].
    destruct (try_components E data st n) as [st1| |] eqn:Hstep; simpl; [apply IH| |done].
    unfold try_components in Hstep.
    destruct (gmm_fit E n data); simpl in Hstep; [|done].
    by destruct (bic_lt _ _). }
  specialize (H (None, None)).
  destruct (for_each _ ns _) as [st| |]; simpl; [by destruct st.2 | | done].
  intros [= <-]. by apply H.
Qed.

End ModelSelection.

(** ** Threshold Estimator *)

Lemma mask_index_filter {A : Type} (f : A → bool) (a : list A) :
  Np.mask_index a (map f a) = List.filter f a.
Proof.
  induction a as [|x a IH]; simpl; [done|].
  destruct (f x); by rewrite IH.
Qed.

(** [np.argmax] returns the position of an element that no element exceeds. *)
Lemma argmax_from_max (xs seen : list Q) (best : Q) (besti : nat) :
  seen !! besti = Some best →
  (∀ j v, seen !! j = Some v → v <= best) →
  ∃ m, (seen ++ xs) !! Np.argmax_from best besti (length seen) xs = Some m ∧
       ∀ j v, (seen ++ xs) !! j = Some v → v <= m.
Proof.
  revert seen best besti. induction xs as [|x xs IH]; intros seen best besti Hbest Hmax; simpl.
  - exists best. rewrite app_nil_r. by split.
  - rewrite (assoc_L (++) seen [x] xs : seen ++ x :: xs = (seen ++ [x]) ++ xs).
    replace (S (length seen)) with (length (seen ++ [x])) by (rewrite length_app; simpl; lia).
    destruct (Qlt_le_dec best x) as [Hlt|Hle]; apply IH.
    + rewrite lookup_app_r by lia. by rewrite Nat.sub_diag.
    + intros j v Hj. apply lookup_snoc_Some in Hj as [[_ Hj]|[_ <-]].
      * apply Qle_trans with best; [by eapply Hmax | by apply Qlt_le_weak].
      * apply Qle_refl.
    + rewrite lookup_app_l; [done | by eapply lookup_lt_Some].
    + intros j v Hj. apply lookup_snoc_Some in Hj as [[_ Hj]|[_ Heq]].
      * by eapply Hmax.
      * subst v. exact Hle.
Qed.

Lemma argmax_max (xs : list Q) (m : Q) :
  xs !! Np.argmax xs = Some m → ∀ j v, xs !! j = Some v → v <= m.
Proof.
  destruct xs as [|x xs]; [done|]. unfold Np.argmax. intros Hm.
  destruct (argmax_from_max xs [x] x 0 eq_refl) as (m' & Hm' & Hmax).
  - intros [|j] v Hj; simpl in Hj; [|done]. injection Hj as <-. apply Qle_refl.
  - simpl in Hm', Hmax. rewrite Hm in Hm'. injection Hm' as <-. exact Hmax.
Qed.

Lemma argmax_lookup (xs : list Q) : xs ≠ [] → is_Some (xs !! Np.argmax xs).
Proof.
  destruct xs as [|x xs]; [done|]. intros _. unfold Np.argmax.
  destruct (argmax_from_max xs [x] x 0 eq_refl) as (m & Hm & _).
  - intros [|j] v Hj; simpl in Hj; [|done]. injection Hj as <-. apply Qle_refl.
  - by exists m.
Qed.

(** C1 (as the code has it). When the estimator of a condition returns, its
    threshold is the inverse CDF at [1 - bound_threshold] of the log-normal
    fitted to the values below their 99th percentile and anchored at the
    larger-mean component of the mixture with the lower BIC, rounded to five
    decimals; and it returns whenever the percentile, the two mixture fits
    (each with one variance per component) and the log-normal fit do. *)
Theorem threshold_is_rounded_inverse_cdf (E : Env) (bound_threshold : Q)
    (background : Background) (bigwig : string) (values : list Q) :
  bg_values_of background bigwig = Done values → values ≠ [] →
  (∀ t p, estimate_condition E bound_threshold background bigwig = Done (t, p) →
     ∃ v, inverse_cdf_threshold E bound_threshold values v ∧ t = py_round v 5) ∧
  (is_Some (np_percentile E values 99) →
   (∀ n, n ∈ seq 1 2 →
      ∃ g, gmm_fit E n (reshape_col (map (np_log E) values)) = Some g ∧
           concat (means_ g) ≠ [] ∧
           length (concat (concat (covariances_ g))) = length (concat (means_ g))) →
   (∀ data f0 fscale, data ≠ [] → is_Some (lognorm_fit E data f0 fscale)) →
   (∀ x_max, np_percentile E values 99 = Some x_max →
      List.filter (λ v, if Qlt_le_dec v x_max then true else false) values ≠ []) →
   ∃ t p, estimate_condition E bound_threshold background bigwig = Done (t, p)).
Proof.
  intros Hvalues _. unfold estimate_condition. rewrite Hvalues. simpl.
  unfold fit_lognorm. split.
  - intros t p Hest.
    destruct (np_percentile E values 99) as [x_max|] eqn:Hp99; simpl in Hest; [|done].
    destruct (best_gmm_over E _ _) as [gmm| |] eqn:Hgmm; simpl in Hest; [|done|done].
    destruct (map (np_sqrt E) _ !! _) as [sd|] eqn:Hsd; simpl in Hest; [|done].
    destruct (concat (means_ gmm) !! _) as [mean|] eqn:Hmean; simpl in Hest; [|done].
    destruct (lognorm_fit E _ sd _) as [params|] eqn:Hparams; simpl in Hest; [|done].
    injection Hest as <- _.
    rewrite list_lookup_fmap in Hsd.
    destruct (concat (concat (covariances_ gmm)) !! _) as [variance|] eqn:Hvar;
      simpl in Hsd; [|done].
    injection Hsd as <-.
    rewrite mask_index_filter in Hparams.
    exists (lognorm_ppf E (1 - bound_threshold) params). split; [|done].
    exists x_max, gmm, (Np.argmax (concat (means_ gmm))), mean, variance, params.
    split; [done|]. split; [by apply best_gmm_over_lowest|].
    split; [|done].
    exists mean. split; [done|]. by apply argmax_max.
  - intros [x_max Hp99] Hfits Hlognorm Hbelow. rewrite Hp99. simpl.
    destruct (best_gmm_over_total E (reshape_col (map (np_log E) values)) [1; 2]%nat)
      as [gmm Hgmm]; [done | |].
    { intros n Hn. destruct (Hfits n Hn) as (g & -> & _). by eexists. }
    rewrite Hgmm. simpl.
    destruct (best_gmm_over_lowest E _ _ _ Hgmm) as [(n & Hn & Hfit) _].
    destruct (Hfits n Hn) as (g & Hg & Hmeans & Hcov).
    rewrite Hfit in Hg. injection Hg as <-.
    destruct (argmax_lookup _ Hmeans) as [mean Hmean].
    assert (Hsd : is_Some (concat (concat (covariances_ gmm)) !! Np.argmax (concat (means_ gmm)))).
    { apply lookup_lt_is_Some. rewrite Hcov. by eapply lookup_lt_Some. }
    destruct Hsd as [variance Hvar].
    rewrite list_lookup_fmap, Hvar, Hmean. simpl.
    rewrite mask_index_filter.
    destruct (Hlognorm _ (np_sqrt E variance) (np_exp E mean) (Hbelow x_max Hp99))
      as [params ->].
    simpl. by eexists _, _.
Qed.

Lemma threshold_is_rounded_inverse_cdf_witness :
  ∃ v, inverse_cdf_threshold Stub.env (1 # 2) [2; 3; 1; 5; 2; 4; 3; 1; 2] v ∧
       355556 # 100000 = py_round v 5.
Proof.
  destruct (threshold_is_rounded_inverse_cdf Stub.env (1 # 2) Stub.background_AB "B"
              [2; 3; 1; 5; 2; 4; 3; 1; 2]) as [Hthreshold _].
  - vm_compute. reflexivity.
  - discriminate.
  - apply (Hthreshold _ (7 # 8)). vm_compute. reflexivity.
Defined.

(** C1 as stated fails: for condition B of the sample background the
    threshold is 3.55556, and no inverse-CDF value of the specification
    equals it (the value is 32/9). *)
Lemma threshold_not_inverse_cdf :
  ∃ values t p,
    bg_values_of Stub.background_AB "B" = Done values ∧ values ≠ [] ∧
    estimate_condition Stub.env (1 # 2) Stub.background_AB "B" = Done (t, p) ∧
    ∀ v, inverse_cdf_threshold Stub.env (1 # 2) values v → ¬ t == v.
Proof.
  exists [2; 3; 1; 5; 2; 4; 3; 1; 2], (355556 # 100000), (7 # 8).
  split; [by vm_compute|]. split; [done|]. split; [by vm_compute|].
  intros v (p99 & g & i & mean & variance & params
            & Hp & [(n & Hn & Hg) _] & _ & Hmean & Hvar & Hfit & ->).
  vm_compute in Hp. injection Hp as <-.
  rewrite !elem_of_cons, elem_of_nil in Hn.
  destruct Hn as [-> | [-> | []]]; vm_compute in Hg; injection Hg as <-.
  - destruct i as [|i]; simpl in Hmean, Hvar; [|done].
    injection Hmean as <-. injection Hvar as <-.
    vm_compute in Hfit. injection Hfit as <-.
    vm_compute. discriminate.
  - destruct i as [|[|i]]; simpl in Hmean, Hvar; [| |done];
      injection Hmean as <-; injection Hvar as <-;
      vm_compute in Hfit; injection Hfit as <-;
      vm_compute; discriminate.
Qed.

(** ** Differential Null Estimator *)

Section NullEstimator.

Context (E : Env).

Lemma values_T_nil_r (log2fcs : list Q) : values_T log2fcs [] = [].
Proof. by destruct log2fcs. Qed.

(** The rows that the code hands to the mixture fit are the (log2fc, GC)
    points of the retained positions. *)
Lemma values_T_retained (pseudo : Q) (scores1 scores2 gcs : list Q) :
  let inc := included scores1 scores2 in
  values_T (log2fcs_of E pseudo (Np.mask_index scores1 inc) (Np.mask_index scores2 inc))
           (Np.mask_index gcs inc)
  = null_points E pseudo (retained scores1 scores2 gcs).
Proof.
  revert scores2 gcs. induction scores1 as [|s1 scores1 IH]; intros [|s2 scores2] gcs;
    try done.
  destruct gcs as [|gc gcs].
  - intros inc. change (Np.mask_index [] inc) with (@nil Q). rewrite values_T_nil_r.
    unfold retained. by rewrite zip_with_nil_r.
  - specialize (IH scores2 gcs). simpl in IH. unfold retained in *. simpl.
    destruct (negb (Np.isclose0 s1 && Np.isclose0 s2)); simpl; by rewrite IH.
Qed.

Lemma fit_log2fc_background_unfold (pseudo : Q) (background : Background)
    (bigwig1 bigwig2 : string) (scores1 scores2 : list Q) :
  bg_signal background !! bigwig1 = Some scores1 →
  bg_signal background !! bigwig2 = Some scores2 →
  length scores1 = length scores2 →
  length (bg_gc background) = length scores1 →
  fit_log2fc_background E pseudo background bigwig1 bigwig2 =
    if (length (null_points E pseudo (retained scores1 scores2 (bg_gc background))) =? 0)%nat
    then SysExit (zero_message bigwig1 bigwig2)
    else best_gmm_over E (seq 1 9)
           (null_points E pseudo (retained scores1 scores2 (bg_gc background))).
Proof.
  intros H1 H2 Hlen Hgc. unfold fit_log2fc_background.
  rewrite H1, H2. simpl.
  rewrite <- Hlen, Hgc, Nat.eqb_refl. simpl.
  rewrite <- values_T_retained.
  set (inc := included scores1 scores2).
  assert (Hsame : length (log2fcs_of E pseudo (Np.mask_index scores1 inc) (Np.mask_index scores2 inc))
                  = length (values_T
                      (log2fcs_of E pseudo (Np.mask_index scores1 inc) (Np.mask_index scores2 inc))
                      (Np.mask_index (bg_gc background) inc))).
  { subst inc. clear H1 H2. revert Hlen Hgc. generalize (bg_gc background).
    clear background. intros gcs. revert scores2 gcs.
    induction scores1 as [|s1 scores1 IH]; intros [|s2 scores2] [|gc gcs] Hlen Hgc;
      simpl in *; try done.
    destruct (negb (Np.isclose0 s1 && Np.isclose0 s2)); simpl;
      [f_equal|]; apply IH; lia. }
  by rewrite <- Hsame.
Qed.

End NullEstimator.

(** C3 (as the code has it). For a pair of conditions sampled at the same
    positions, of which some are retained: when the estimator returns, the
    mixture is the one with the lowest BIC among the fits with 1 to 9
    components of the (log2fc, GC) points of exactly the retained positions;
    and it returns whenever the nine fits do. *)
Theorem log2fc_background_model (E : Env) (pseudo : Q) (background : Background)
    (bigwig1 bigwig2 : string) (scores1 scores2 : list Q) :
  bg_signal background !! bigwig1 = Some scores1 →
  bg_signal background !! bigwig2 = Some scores2 →
  length scores1 = length scores2 →
  length (bg_gc background) = length scores1 →
  retained scores1 scores2 (bg_gc background) ≠ [] →
  let points := null_points E pseudo (retained scores1 scores2 (bg_gc background)) in
  (∀ g, fit_log2fc_background E pseudo background bigwig1 bigwig2 = Done g →
        null_model E pseudo scores1 scores2 (bg_gc background) g) ∧
  ((∀ n, n ∈ seq 1 9 → is_Some (gmm_fit E n points)) →
   ∃ g, fit_log2fc_background E pseudo background bigwig1 bigwig2 = Done g).
Proof.
  intros H1 H2 Hlen Hgc Hret points.
  rewrite (fit_log2fc_background_unfold E pseudo background _ _ _ _ H1 H2 Hlen Hgc).
  fold points.
  assert (Hpts : (length points =? 0)%nat = false).
  { apply Nat.eqb_neq. subst points. unfold null_points. rewrite length_map.
    destruct (retained _ _ _); [done | simpl; lia]. }
  rewrite Hpts. split.
  - intros g Hg. by apply best_gmm_over_lowest.
  - intros Hfits. by apply best_gmm_over_total.
Qed.

Lemma log2fc_background_model_witness :
  ∃ g, fit_log2fc_background Stub.env (7 # 8) Stub.background_AB "A" "B" = Done g ∧
       null_model Stub.env (7 # 8)
         [1; 2; 5; 0; 3; 4; 2; 6; 1; 3; 2] [2; 0; 3; 0; 1; 5; 2; 4; 3; 1; 2]
         (bg_gc Stub.background_AB) g.
Proof.
  destruct (log2fc_background_model Stub.env (7 # 8) Stub.background_AB "A" "B"
              [1; 2; 5; 0; 3; 4; 2; 6; 1; 3; 2] [2; 0; 3; 0; 1; 5; 2; 4; 3; 1; 2])
    as [Hmodel Hreturns].
  - reflexivity.
  - reflexivity.
  - reflexivity.
  - reflexivity.
  - vm_compute. discriminate.
  - destruct Hreturns as [g Hg].
    + intros n Hn. simpl in Hn. rewrite !elem_of_cons, elem_of_nil in Hn.
      destruct Hn as [->|[->|[->|[->|[->|[->|[->|[->|[->|[]]]]]]]]]];
        vm_compute; by eexists.
    + exists g. split; [exact Hg | by apply Hmodel].
Defined.

(** C3 as stated fails: a pair with three retained positions has no mixture
    of four components, the fit for that count raises and the estimator
    returns nothing. *)
Lemma log2fc_background_not_returned :
  let background :=
    {| bg_signal := {[ "A" := [3; 0; 1; 4]; "B" := [1; 0; 2; 2] ]};
       bg_gc := [1 # 2; 1 # 2; 2 # 5; 3 # 5] |} in
  bg_signal background !! "A" = Some [3; 0; 1; 4] ∧
  bg_signal background !! "B" = Some [1; 0; 2; 2] ∧
  length (retained [3; 0; 1; 4] [1; 0; 2; 2] (bg_gc background)) = 3%nat ∧
  ¬ ∃ g, fit_log2fc_background Stub.env 1 background "A" "B" = Done g.
Proof.
  intros background. split; [reflexivity|]. split; [reflexivity|].
  split; [reflexivity|].
  intros [g Hg]. vm_compute in Hg. discriminate Hg.
Qed.

(** ** Monotonicity *)

Lemma rint_bounds (x : Q) : (Qfloor x <= rint x <= Qfloor x + 1)%Z.
Proof.
  unfold rint. destruct (Qcompare _ _); [destruct (Z.even _)| |]; lia.
Qed.

(** Rounding to the nearest integer keeps the order. *)
Lemma rint_mono (x y : Q) : x <= y → (rint x <= rint y)%Z.
Proof.
  intros Hxy. pose proof (Qfloor_resp_le _ _ Hxy) as Hfloor.
  destruct (Z.eq_dec (Qfloor x) (Qfloor y)) as [Heq|Hne].
  - unfold rint. rewrite <- Heq.
    destruct (Qcompare (x - inject_Z (Qfloor x)) (1 # 2)) eqn:Hx;
      destruct (Qcompare (y - inject_Z (Qfloor x)) (1 # 2)) eqn:Hy;
      try (destruct (Z.even (Qfloor x)); lia); exfalso.
    + apply Qeq_alt in Hx. apply Qlt_alt in Hy. lra.
    + apply Qgt_alt in Hx. apply Qeq_alt in Hy. lra.
    + apply Qgt_alt in Hx. apply Qlt_alt in Hy. lra.
  - pose proof (rint_bounds x). pose proof (rint_bounds y). lia.
Qed.

Lemma pow10_pos (ndigits : nat) : 0 < pow10 ndigits.
Proof.
  unfold pow10. rewrite <- (Zlt_Qlt 0). apply Z.pow_pos_nonneg; lia.
Qed.

(** Python's [round] keeps the order. *)
Lemma py_round_mono (x y : Q) (ndigits : nat) :
  x <= y → py_round x ndigits <= py_round y ndigits.
Proof.
  intros Hxy. unfold py_round. pose proof (pow10_pos ndigits) as Hpos.
  apply Qmult_le_compat_r; [|apply Qlt_le_weak, Qinv_lt_0_compat, Hpos].
  rewrite <- Zle_Qle. apply rint_mono.
  apply Qmult_le_compat_r; [done | by apply Qlt_le_weak].
Qed.

(** C4. For a fixed background, a larger [bound_threshold] gives a threshold
    that is not larger, provided the inverse CDF of the library does not
    decrease. *)
Theorem threshold_monotone (E : Env) (background : Background) (bigwig : string)
    (bound1 bound2 t1 p1 : Q) :
  ppf_monotone E → bound1 <= bound2 →
  estimate_condition E bound1 background bigwig = Done (t1, p1) →
  ∃ t2, estimate_condition E bound2 background bigwig = Done (t2, p1) ∧ t2 <= t1.
Proof.
  intros Hppf Hbound Hest. unfold estimate_condition in *.
  destruct (bg_values_of background bigwig) as [values| |]; simpl in *; [|done|done].
  destruct (fit_lognorm E values) as [log_params| |]; simpl in *; [|done|done].
  injection Hest as <- <-. eexists. split; [reflexivity|].
  unfold threshold_of. apply py_round_mono, Hppf. lra.
Qed.

Lemma stub_ppf_monotone : ppf_monotone Stub.env.
Proof.
  intros [[s loc] scale] q1 q2 Hq. simpl. unfold Stub.lognorm_ppf'.
  rewrite !Qred_correct.
  pose proof (Qabs_nonneg s) as Hs. pose proof (Qabs_nonneg scale) as Hscale.
  revert Hs Hscale. generalize (Qabs s) (Qabs scale). intros a b Ha Hb.
  apply Qplus_le_r. rewrite !(Qmult_comm b). apply Qmult_le_compat_r; [|done].
  apply Qplus_le_r. rewrite !(Qmult_comm a). apply Qmult_le_compat_r; [lra | done].
Qed.

Lemma threshold_monotone_witness :
  ∃ t2, estimate_condition Stub.env (1 # 2) Stub.background_AB "A" = Done (t2, 2 # 2) ∧
        t2 <= 468000 # 100000.
Proof.
  apply (threshold_monotone Stub.env Stub.background_AB "A" (2 # 5) (1 # 2)).
  - exact stub_ppf_monotone.
  - vm_compute. discriminate.
  - vm_compute. reflexivity.
Defined.

(** ** Degenerate backgrounds *)

Section Degenerate.

Context (E : Env).

(** The estimator of a condition has no [sys.exit]: it returns or it lets an
    exception of a collaborator pass. *)
Lemma estimate_condition_no_exit (bound : Q) (background : Background) (bigwig msg : string) :
  estimate_condition E bound background bigwig ≠ SysExit msg.
Proof.
  unfold estimate_condition, bg_values_of.
  destruct (bg_signal background !! bigwig) as [scores|]; simpl; [|done].
  unfold fit_lognorm.
  destruct (np_percentile E _ 99) as [x_max|]; simpl; [|done].
  pose proof (best_gmm_over_no_exit E
    (reshape_col (map (np_log E) (Np.mask_index scores (map (λ v, negb (Np.isclose0 v)) scores))))
    (seq 1 2) msg) as Hgmm.
  destruct (best_gmm_over E _ _) as [gmm| |]; simpl; [|congruence|done].
  destruct (map (np_sqrt E) _ !! _); simpl; [|done].
  destruct (concat (means_ gmm) !! _); simpl; [|done].
  by destruct (lognorm_fit E _ _ _).
Qed.

(** On an empty vector the estimator stops at the first call of a
    collaborator that rejects it. *)
Lemma estimate_condition_empty (bound : Q) (background : Background) (bigwig : string) :
  fit_rejects_empty E →
  bg_values_of background bigwig = Done [] →
  ∃ call, estimate_condition E bound background bigwig = Raised call ∧
          (call = "np.percentile" ∨ call = "GaussianMixture.fit").
Proof.
  intros Hrej Hvalues. unfold estimate_condition. rewrite Hvalues. simpl.
  unfold fit_lognorm. destruct (np_percentile E [] 99); simpl.
  - rewrite (best_gmm_over_raises E [] 1 [2%nat] (Hrej 1%nat)). simpl. eauto.
  - eauto.
Qed.

(** The loop over the conditions raises as soon as one condition does, and
    never exits with a message. *)
Lemma estimate_scores_raises (bound : Q) (background : Background) (conds : list string)
    (vars : ScoreVars) (bigwig : string) :
  bigwig ∈ conds →
  (∃ call, estimate_condition E bound background bigwig = Raised call) →
  ∃ call, for_each (score_step E bound background) conds vars = Raised call.
Proof.
  intros Hin Hraise. revert vars Hin.
  induction conds as [|c conds IH]; intros vars Hin; [by apply elem_of_nil in Hin|].
  simpl.
  destruct (score_step E bound background vars c) as [vars1|msg|call] eqn:Hstep; simpl;
    unfold score_step in Hstep;
    destruct (estimate_condition E bound background c) as [[t p]|msg'|call'] eqn:Hc;
    simpl in Hstep; try done.
  - apply elem_of_cons in Hin as [->|Hin]; [|by apply IH].
    destruct Hraise as [call Hcall]. congruence.
  - by apply estimate_condition_no_exit in Hc.
  - by eexists.
Qed.

Lemma run_raises (args : Args) (names : list string) (background : Background)
    (TF_overlaps : list (string * string * Q)) (bigwig : string) :
  bigwig ∈ cond_names args →
  (∃ call, estimate_condition E (bound_threshold args) background bigwig = Raised call) →
  ∃ call, run_bindetect E args names background TF_overlaps = ([], Raised call).
Proof.
  intros Hin Hraise. unfold run_bindetect, fit_models, estimate_scores.
  destruct (estimate_scores_raises (bound_threshold args) background (cond_names args)
              {| sv_thresholds := ∅; sv_pseudos := []; sv_pseudo := None |} bigwig Hin Hraise)
    as [call ->].
  simpl. by eexists.
Qed.

End Degenerate.

(** A pair of conditions of which no position is retained has only
    near-zero scores in its first condition. *)
Lemma retained_nil_values (scores1 scores2 gcs : list Q) :
  length scores1 = length scores2 → length gcs = length scores1 →
  retained scores1 scores2 gcs = [] →
  Np.mask_index scores1 (map (λ v, negb (Np.isclose0 v)) scores1) = [].
Proof.
  revert scores2 gcs. unfold retained.
  induction scores1 as [|s1 scores1 IH]; intros [|s2 scores2] [|gc gcs] Hlen Hgc Hret;
    simpl in *; try done.
  destruct (Np.isclose0 s1); simpl in *; [|done].
  destruct (Np.isclose0 s2); simpl in *; [|done].
  apply (IH scores2 gcs); [lia | lia | done].
Qed.

Lemma combinations2_fst {A : Type} (xs : list A) (x y : A) :
  (x, y) ∈ combinations2 xs → x ∈ xs.
Proof.
  induction xs as [|z xs IH]; simpl; [by intros ?%elem_of_nil|].
  intros [Hin|Hin]%elem_of_app.
  - apply list_elem_of_fmap in Hin as (? & [= -> ->] & _). by left.
  - right. by apply IH.
Qed.

Lemma string_app_assoc (s1 s2 s3 : string) : (s1 +:+ s2) +:+ s3 = s1 +:+ s2 +:+ s3.
Proof.
  induction s1 as [|c s1 IH]; [done|].
  change (String c ((s1 +:+ s2) +:+ s3) = String c (s1 +:+ s2 +:+ s3)).
  by rewrite IH.
Qed.

Lemma zero_message_names (bigwig1 bigwig2 : string) :
  names_condition (zero_message bigwig1 bigwig2) bigwig1 ∧
  names_condition (zero_message bigwig1 bigwig2) bigwig2.
Proof.
  unfold zero_message. split.
  - by eexists _, _.
  - exists ("ERROR: Bigwig values of conditions " +:+ bigwig1 +:+ " and "),
      " are equal or contain only zeroes - please check your input data.".
    by rewrite !string_app_assoc.
Qed.

(** C6. A condition whose scores are all close to zero: the run stops before
    any TF is processed, but with the exception of numpy or scikit-learn,
    not with a [sys.exit] message that names the condition. *)
Theorem empty_background_raises (E : Env) (args : Args) (names : list string)
    (background : Background) (TF_overlaps : list (string * string * Q)) (bigwig : string) :
  fit_rejects_empty E →
  bigwig ∈ cond_names args →
  bg_values_of background bigwig = Done [] →
  (∃ call, estimate_condition E (bound_threshold args) background bigwig = Raised call ∧
           (call = "np.percentile" ∨ call = "GaussianMixture.fit")) ∧
  ∃ call, run_bindetect E args names background TF_overlaps = ([], Raised call).
Proof.
  intros Hrej Hin Hvalues.
  destruct (estimate_condition_empty E (bound_threshold args) background bigwig Hrej Hvalues)
    as (call & Hcall & Hwhich).
  split; [by exists call|].
  apply (run_raises E args names background TF_overlaps bigwig Hin). by exists call.
Qed.

(** C5. A pair of conditions of which no position is retained: the guard of
    the pair would exit with a message that names both, but the run never
    gets there, since the first condition of the pair has no score left for
    its threshold. *)
Theorem zero_pair_raises (E : Env) (args : Args) (names : list string)
    (background : Background) (TF_overlaps : list (string * string * Q))
    (bigwig1 bigwig2 : string) (scores1 scores2 : list Q) (pseudo : Q) :
  fit_rejects_empty E →
  (bigwig1, bigwig2) ∈ combinations2 (cond_names args) →
  bg_signal background !! bigwig1 = Some scores1 →
  bg_signal background !! bigwig2 = Some scores2 →
  length scores1 = length scores2 →
  length (bg_gc background) = length scores1 →
  retained scores1 scores2 (bg_gc background) = [] →
  fit_log2fc_background E pseudo background bigwig1 bigwig2
    = SysExit (zero_message bigwig1 bigwig2) ∧
  names_condition (zero_message bigwig1 bigwig2) bigwig1 ∧
  names_condition (zero_message bigwig1 bigwig2) bigwig2 ∧
  ∃ call, run_bindetect E args names background TF_overlaps = ([], Raised call).
Proof.
  intros Hrej Hpair H1 H2 Hlen Hgc Hret.
  split; [|split; [apply zero_message_names | split; [apply zero_message_names|]]].
  - rewrite (fit_log2fc_background_unfold E pseudo background _ _ _ _ H1 H2 Hlen Hgc).
    by rewrite Hret.
  - apply (run_raises E args names background TF_overlaps bigwig1).
    + by eapply combinations2_fst.
    + destruct (estimate_condition_empty E (bound_threshold args) background bigwig1 Hrej)
        as (call & Hcall & _); [|by exists call].
      unfold bg_values_of. rewrite H1. simpl.
      by rewrite (retained_nil_values scores1 scores2 (bg_gc background)).
Qed.

Lemma stub_fit_rejects_empty : fit_rejects_empty Stub.env.
Proof. intros n. reflexivity. Qed.

Lemma empty_background_raises_witness :
  ∃ call, run_bindetect Stub.env (Stub.args_of ["A"; "B"] (2 # 5) None)
            ["CTCF"; "SP1"] Stub.background_zero [] = ([], Raised call).
Proof.
  apply (empty_background_raises Stub.env (Stub.args_of ["A"; "B"] (2 # 5) None)
           ["CTCF"; "SP1"] Stub.background_zero [] "A").
  - exact stub_fit_rejects_empty.
  - simpl. by left.
  - vm_compute. reflexivity.
Defined.

Lemma zero_pair_raises_witness :
  fit_log2fc_background Stub.env 1 Stub.background_zero "A" "B"
    = SysExit (zero_message "A" "B") ∧
  ∃ call, run_bindetect Stub.env (Stub.args_of ["A"; "B"] (2 # 5) None)
            ["CTCF"; "SP1"] Stub.background_zero [] = ([], Raised call).
Proof.
  destruct (zero_pair_raises Stub.env (Stub.args_of ["A"; "B"] (2 # 5) None)
              ["CTCF"; "SP1"] Stub.background_zero [] "A" "B" [0; 0; 0] [0; 0; 0] 1)
    as (Hexit & _ & _ & Hrun).
  - exact stub_fit_rejects_empty.
  - simpl. by left.
  - reflexivity.
  - reflexivity.
  - reflexivity.
  - reflexivity.
  - reflexivity.
  - split; assumption.
Defined.

(** ** Two runs *)

Lemma reversed_distinct : list_set_distinct Stub.env_reversed.
Proof.
  intros l. simpl. split.
  - rewrite reverse_Permutation. apply NoDup_remove_dups.
  - intros x. rewrite elem_of_reverse. apply elem_of_remove_dups.
Qed.

(** The rows of the table come in the order in which the set of TF names
    iterates. *)
Lemma table_rows_in_set_order (E : Env) (args : Args) (names : list string)
    (background : Background) (TF_overlaps : list (string * string * Q)) (r : Result) :
  (run_bindetect E args names background TF_overlaps).2 = Done r →
  ∃ args' log2fc_params,
    res_table r = map (λ name, process_tfbs E name args' log2fc_params) (list_set E names).
Proof.
  unfold run_bindetect.
  destruct (fit_models E args background) as [[args' params]| |]; simpl; [|done|done].
  destruct (map _ (list_set E names)) as [|row rows] eqn:Hresults; simpl; [done|].
  intros [= <-]. exists args', params. by rewrite Hresults.
Qed.

(** C9. Two runs on the same input whose sets of TF names iterate in
    different orders: the thresholds and the pseudocount agree and the tables
    hold the same rows, but in a different order. *)
Theorem table_order_follows_set_order :
  let args := Stub.args_of ["A"; "B"] (1 # 2) None in
  let names := ["CTCF"; "SP1"; "CTCF"; "SP1"] in
  list_set_distinct Stub.env ∧ list_set_distinct Stub.env_reversed ∧
  ∃ r1 r2,
    (run_bindetect Stub.env args names Stub.background_AB []).2 = Done r1 ∧
    (run_bindetect Stub.env_reversed args names Stub.background_AB []).2 = Done r2 ∧
    res_thresholds r1 = res_thresholds r2 ∧
    res_pseudo r1 = res_pseudo r2 ∧
    res_table r1 ≡ₚ res_table r2 ∧
    res_table r1 ≠ res_table r2.
Proof.
  intros args names.
  split; [exact remove_dups_distinct|]. split; [exact reversed_distinct|].
  destruct (run_bindetect Stub.env args names Stub.background_AB []) as [ev1 o1] eqn:H1.
  destruct (run_bindetect Stub.env_reversed args names Stub.background_AB []) as [ev2 o2] eqn:H2.
  vm_compute in H1. vm_compute in H2.
  injection H1 as _ <-. injection H2 as _ <-.
  eexists _, _. split; [reflexivity|]. split; [reflexivity|].
  split; [reflexivity|]. split; [reflexivity|]. split.
  - simpl. apply perm_swap.
  - simpl. discriminate.
Qed.

(** * Further properties *)

(** ** More on the writer queues *)

Lemma TF_names_chunks_nil (w : nat) : concat (TF_names_chunks [] w) = [].
Proof.
  unfold TF_names_chunks. generalize 0%nat.
  induction w as [|w IH]; intros start; [done|]. simpl. apply IH.
Qed.

(** One more name in front: it joins the first chunk, and the other chunks
    move one writer on. *)
Lemma TF_names_chunks_cons (x : string) (l : list string) (w : nat) :
  (0 < w)%nat →
  concat (TF_names_chunks (x :: l) w) ≡ₚ x :: concat (TF_names_chunks l w).
Proof.
  destruct w as [|w]; [lia|]. intros _. unfold TF_names_chunks.
  rewrite (seq_S w 0) at 2. simpl seq at 1. rewrite <- fmap_S_seq.
  rewrite fmap_cons, <- list_fmap_compose, fmap_app, concat_cons, concat_app.
  simpl. rewrite Nat.sub_0_r, app_nil_r.
  apply Permutation_skip. apply Permutation_app_comm.
Qed.

(** X3. The chunks of the writers hold the predicted names, each as often as
    the list has it: no name is lost and none is added. *)
Theorem TF_names_chunks_permutation (motif_names_predict : list string) (w : nat) :
  (0 < w)%nat →
  concat (TF_names_chunks motif_names_predict w) ≡ₚ motif_names_predict.
Proof.
  intros Hw. induction motif_names_predict as [|x l IH].
  - by rewrite TF_names_chunks_nil.
  - rewrite TF_names_chunks_cons by done. by rewrite IH.
Qed.

Lemma TF_names_chunks_permutation_witness :
  concat (TF_names_chunks ["CTCF"; "SP1"; "KLF4"] writer_cores) ≡ₚ ["CTCF"; "SP1"; "KLF4"].
Proof.
  apply (TF_names_chunks_permutation ["CTCF"; "SP1"; "KLF4"] writer_cores).
  unfold writer_cores. lia.
Defined.

Lemma slice_step_length (l : list string) (k w j : nat) :
  (0 < w)%nat → (j < length (slice_step l k w))%nat ↔ (k + j * w < length l)%nat.
Proof.
  intros Hw. rewrite <- !lookup_lt_is_Some. by rewrite slice_step_lookup.
Qed.

(** X4. The round robin is balanced: an earlier writer has as many names as a
    later one, or one more. *)
Theorem TF_names_chunks_balanced (motif_names_predict : list string) (w i j : nat)
    (chunk_i chunk_j : list string) :
  TF_names_chunks motif_names_predict w !! i = Some chunk_i →
  TF_names_chunks motif_names_predict w !! j = Some chunk_j →
  (i <= j)%nat →
  (length chunk_j <= length chunk_i <= length chunk_j + 1)%nat.
Proof.
  intros [Hi ->]%TF_names_chunks_lookup [Hj ->]%TF_names_chunks_lookup Hij.
  assert (Hw : (0 < w)%nat) by lia.
  set (l := motif_names_predict).
  set (ni := length (slice_step l i w)). set (nj := length (slice_step l j w)).
  split.
  - destruct (decide (nj <= ni)%nat) as [|Hgt]; [done|]. exfalso.
    assert (H1 : (j + ni * w < length l)%nat) by (apply slice_step_length; [done|lia]).
    assert (H2 : (i + ni * w < length l)%nat) by lia.
    apply slice_step_length in H2; [|done]. fold ni in H2. lia.
  - destruct (decide (ni <= nj + 1)%nat) as [|Hgt]; [done|]. exfalso.
    assert (H1 : (i + (nj + 1) * w < length l)%nat) by (apply slice_step_length; [done|lia]).
    assert (H2 : ¬ (j + nj * w < length l)%nat).
    { intros H%slice_step_length; [|done]. fold nj in H. lia. }
    lia.
Qed.

Lemma TF_names_chunks_balanced_witness :
  (length ["SP1"; "MYC"] <= length ["CTCF"; "KLF4"; "JUN"]
   <= length ["SP1"; "MYC"] + 1)%nat.
Proof.
  apply (TF_names_chunks_balanced ["CTCF"; "SP1"; "KLF4"; "MYC"; "JUN"] 2 0 1);
    [reflexivity | reflexivity | lia].
Defined.

Lemma assign_queues_keeps (chunks : list (list string)) (qs : gmap string nat) (q0 : nat)
    (TF : string) :
  is_Some (qs !! TF) → is_Some (assign_queues qs q0 chunks !! TF).
Proof.
  revert qs q0. induction chunks as [|c chunks IH]; intros qs q0 Hsome; [done|].
  simpl. apply IH. rewrite assign_chunk_lookup. by case_decide.
Qed.

Lemma assign_queues_some (chunks : list (list string)) (qs : gmap string nat) (q0 : nat)
    (TF : string) (sub : list string) :
  sub ∈ chunks → TF ∈ sub → is_Some (assign_queues qs q0 chunks !! TF).
Proof.
  revert qs q0. induction chunks as [|c chunks IH]; intros qs q0 Hsub Hin.
  - by apply elem_of_nil in Hsub.
  - simpl. apply elem_of_cons in Hsub as [<-|Hsub]; [|by apply IH].
    apply assign_queues_keeps. by rewrite assign_chunk_lookup, decide_True.
Qed.

Lemma assign_queues_origin (chunks : list (list string)) (qs : gmap string nat) (q0 q : nat)
    (TF : string) :
  assign_queues qs q0 chunks !! TF = Some q →
  (∃ i sub, chunks !! i = Some sub ∧ TF ∈ sub ∧ q = (q0 + i)%nat) ∨ qs !! TF = Some q.
Proof.
  revert qs q0. induction chunks as [|c chunks IH]; intros qs q0 Hq; [by right|].
  simpl in Hq. apply IH in Hq as [(i & sub & Hi & Hin & ->)|Hq].
  - left. exists (S i), sub. split; [done|]. split; [done|lia].
  - rewrite assign_chunk_lookup in Hq. case_decide as Hin; [|by right].
    injection Hq as <-. left. exists 0%nat, c. split; [done|]. split; [done|lia].
Qed.

(** X5. [qs] has a queue for a TF exactly when the TF is predicted and there
    is a writer at all; the queue is that of a writer whose chunk holds the
    TF. *)
Theorem writer_queues_domain (motif_names_predict : list string) (w : nat) (TF : string) :
  (is_Some (writer_queues motif_names_predict w !! TF)
   ↔ TF ∈ motif_names_predict ∧ (0 < w)%nat) ∧
  ∀ q, writer_queues motif_names_predict w !! TF = Some q →
       (q < w)%nat ∧ TF ∈ slice_step motif_names_predict q w.
Proof.
  assert (Horigin : ∀ q, writer_queues motif_names_predict w !! TF = Some q →
            (q < w)%nat ∧ TF ∈ slice_step motif_names_predict q w).
  { intros q Hq. unfold writer_queues in Hq.
    apply assign_queues_origin in Hq as [(i & sub & Hi & Hin & ->)|Hq]; [|done].
    apply TF_names_chunks_lookup in Hi as [Hi ->]. by split. }
  split; [|done]. split.
  - intros [q Hq]. destruct (Horigin q Hq) as [Hlt Hin].
    split; [|lia]. apply elem_of_slice_step in Hin as [j Hj]; [|lia].
    by eapply list_elem_of_lookup_2.
  - intros [[p Hp]%list_elem_of_lookup Hw].
    apply (assign_queues_some _ _ _ _ (slice_step motif_names_predict (p mod w) w)).
    + apply list_elem_of_lookup. exists (p mod w)%nat.
      apply TF_names_chunks_lookup. split; [apply Nat.mod_upper_bound; lia | done].
    + apply elem_of_slice_step; [done|]. exists (p / w)%nat.
      replace (p mod w + p / w * w)%nat with p; [done|].
      rewrite (Nat.div_mod_eq p w) at 1. lia.
Qed.

(** ** Worker pool *)

(** X6. The worker pool has at least one process for every value of
    [--cores]; the scan runs in the controller exactly for [--cores] up to 2,
    the TFs are processed in the controller only for [--cores] equal to 1. *)
Theorem worker_pool_size (cores : Z) :
  (1 <= worker_cores cores)%Z ∧
  (scan_in_controller cores = true ↔ (cores <= 2)%Z) ∧
  (tfbs_in_controller cores = true ↔ cores = 1%Z) ∧
  (tfbs_in_controller cores = true → scan_in_controller cores = true).
Proof.
  unfold scan_in_controller, tfbs_in_controller, worker_cores.
  rewrite !Z.eqb_eq. lia.
Qed.

(** ** More on the model selection *)

Section FirstMinimum.

Context (E : Env) (data : list (list Q)).

Lemma try_components_first (seen : list nat) (n : nat)
    (st st' : option Q * option GaussianMixture) :
  selected_first E data seen st → try_components E data st n = Done st' →
  selected_first E data (seen ++ [n]) st'.
Proof.
  unfold try_components. intros Hsel Hstep.
  destruct (gmm_fit E n data) as [gmm|] eqn:Hfit; simpl in Hstep; [|done].
  destruct st as [[lowest|] [g|]]; simpl in Hsel; try done.
  - destruct Hsel as (-> & i & k & Hi & Hg & Hbefore & Hall). simpl in Hstep.
    destruct (Qlt_le_dec (gmm_bic E gmm data) (gmm_bic E g data)) as [Hlt|Hle];
      injection Hstep as <-; simpl; (split; [done|]).
    + exists (length seen), n. split; [by rewrite lookup_app_r, Nat.sub_diag by lia|].
      split; [done|]. split.
      * intros j m g' Hj Hm Hg'. rewrite lookup_app_l in Hm by done.
        apply Qlt_le_trans with (gmm_bic E g data); [done | by eapply Hall].
      * intros j m g' Hm Hg'. apply lookup_snoc_Some in Hm as [[_ Hm]|[_ <-]].
        -- apply Qle_trans with (gmm_bic E g data); [by apply Qlt_le_weak | by eapply Hall].
        -- rewrite Hfit in Hg'. injection Hg' as <-. apply Qle_refl.
    + exists i, k. split; [by apply lookup_app_l_Some|]. split; [done|]. split.
      * intros j m g' Hj Hm Hg'. apply lookup_lt_Some in Hi.
        rewrite lookup_app_l in Hm by lia. by eapply Hbefore.
      * intros j m g' Hm Hg'. apply lookup_snoc_Some in Hm as [[_ Hm]|[_ <-]].
        -- by eapply Hall.
        -- rewrite Hfit in Hg'. by injection Hg' as <-.
  - subst seen. simpl in Hstep. injection Hstep as <-. simpl. split; [done|].
    exists 0%nat, n. split; [done|]. split; [done|]. split.
    + intros j m g' Hj. lia.
    + intros [|j] m g' Hm Hg'; simpl in Hm; [|done]. injection Hm as <-.
      rewrite Hfit in Hg'. injection Hg' as <-. apply Qle_refl.
Qed.

Lemma for_each_first (ns seen : list nat) (st st' : option Q * option GaussianMixture) :
  selected_first E data seen st → for_each (try_components E data) ns st = Done st' →
  selected_first E data (seen ++ ns) st'.
Proof.
  revert seen st. induction ns as [|n ns IH]; intros seen st Hsel Hrun; simpl in Hrun.
  - injection Hrun as <-. by rewrite app_nil_r.
  - destruct (try_components E data st n) as [st1| |] eqn:Hstep; simpl in Hrun; [|done|done].
    rewrite (assoc_L (++) seen [n] ns : seen ++ n :: ns = (seen ++ [n]) ++ ns).
    eapply IH; [|done]. by eapply try_components_first.
Qed.

(** A fit that raises ends the loop, wherever it stands in the range. *)
Lemma for_each_fit_fails (ns : list nat) (st : option Q * option GaussianMixture) (n : nat) :
  n ∈ ns → gmm_fit E n data = None →
  for_each (try_components E data) ns st = Raised "GaussianMixture.fit".
Proof.
  intros Hn Hfit. revert st Hn.
  induction ns as [|m ns IH]; intros st Hn; [by apply elem_of_nil in Hn|].
  simpl. destruct (try_components E data st m) as [st1|msg|c] eqn:Hstep; simpl;
    unfold try_components in Hstep;
    destruct (gmm_fit E m data) as [gmm|] eqn:Hm; simpl in Hstep; try done.
  - apply elem_of_cons in Hn as [->|Hn]; [congruence | by apply IH].
  - by destruct (bic_lt _ _).
  - by destruct (bic_lt _ _).
Qed.

End FirstMinimum.

(** X7. Among the component counts tried, the loop keeps the first one whose
    fit has the lowest BIC: equal scores go to the count tried earlier, that
    is to the mixture with fewer components. *)
Theorem best_gmm_over_first_minimum (E : Env) (data : list (list Q))
    (n_components_range : list nat) (g : GaussianMixture) :
  best_gmm_over E n_components_range data = Done g →
  ∃ i n, n_components_range !! i = Some n ∧ gmm_fit E n data = Some g ∧
    (∀ j m g', (j < i)%nat → n_components_range !! j = Some m →
               gmm_fit E m data = Some g' → gmm_bic E g data < gmm_bic E g' data) ∧
    (∀ j m g', n_components_range !! j = Some m →
               gmm_fit E m data = Some g' → gmm_bic E g data <= gmm_bic E g' data).
Proof.
  unfold best_gmm_over. intros Hbest.
  destruct (for_each (try_components E data) n_components_range (None, None))
    as [st| |] eqn:Hrun; simpl in Hbest; [|done|done].
  apply (for_each_first E data n_components_range []) in Hrun; [|done].
  destruct st as [[lowest|] [g'|]]; simpl in *; try done.
  injection Hbest as ->. by destruct Hrun as (_ & Hsel).
Qed.

Lemma best_gmm_over_first_minimum_witness :
  ∃ g i n, best_gmm_over Stub.env (seq 1 2) [[0]; [1]; [4]] = Done g ∧
           seq 1 2 !! i = Some n ∧ gmm_fit Stub.env n [[0]; [1]; [4]] = Some g.
Proof.
  destruct (best_gmm_over Stub.env (seq 1 2) [[0]; [1]; [4]]) as [g| |] eqn:Hbest;
    [|by vm_compute in Hbest..].
  destruct (best_gmm_over_first_minimum Stub.env [[0]; [1]; [4]] (seq 1 2) g Hbest)
    as (i & n & Hi & Hfit & _).
  by exists g, i, n.
Defined.

(** X8. The Differential Null Estimator has no fallback: when the fit for one
    of the nine component counts raises, the estimator raises, whatever the
    fits for the other counts gave. *)
Theorem log2fc_background_fit_fails (E : Env) (pseudo : Q) (background : Background)
    (bigwig1 bigwig2 : string) (scores1 scores2 : list Q) (n : nat) :
  bg_signal background !! bigwig1 = Some scores1 →
  bg_signal background !! bigwig2 = Some scores2 →
  length scores1 = length scores2 →
  length (bg_gc background) = length scores1 →
  retained scores1 scores2 (bg_gc background) ≠ [] →
  (1 <= n <= 9)%nat →
  gmm_fit E n (null_points E pseudo (retained scores1 scores2 (bg_gc background))) = None →
  fit_log2fc_background E pseudo background bigwig1 bigwig2 = Raised "GaussianMixture.fit".
Proof.
  intros H1 H2 Hlen Hgc Hret Hn Hfit.
  rewrite (fit_log2fc_background_unfold E pseudo background _ _ _ _ H1 H2 Hlen Hgc).
  destruct (retained _ _ _) as [|pos rest] eqn:Hpos; [done|].
  simpl length. simpl Nat.eqb. cbv iota.
  unfold best_gmm_over.
  rewrite (for_each_fit_fails E _ (seq 1 9) (None, None) n); [done | | done].
  apply elem_of_seq. lia.
Qed.

Lemma log2fc_background_fit_fails_witness :
  fit_log2fc_background Stub.env 1
    {| bg_signal := {[ "A" := [1; 2; 5]; "B" := [2; 0; 3] ]}; bg_gc := [1 # 2; 1 # 3; 2 # 5] |}
    "A" "B" = Raised "GaussianMixture.fit".
Proof.
  apply (log2fc_background_fit_fails Stub.env 1 _ "A" "B" [1; 2; 5] [2; 0; 3] 4);
    try reflexivity.
  - vm_compute. discriminate.
  - lia.
Defined.

(** ** Rounding of the thresholds *)

Lemma rint_error (y : Q) : Qabs (inject_Z (rint y) - y) <= 1 # 2.
Proof.
  pose proof (Qfloor_le y) as Hlo. pose proof (Qlt_floor y) as Hhi.
  rewrite inject_Z_plus in Hhi. change (inject_Z 1) with 1 in Hhi.
  apply Qabs_Qle_condition. unfold rint.
  destruct (Qcompare (y - inject_Z (Qfloor y)) (1 # 2)) eqn:Hcmp.
  - apply Qeq_alt in Hcmp. destruct (Z.even (Qfloor y)).
    + lra.
    + rewrite inject_Z_plus. change (inject_Z 1) with 1. lra.
  - apply Qlt_alt in Hcmp. lra.
  - apply Qgt_alt in Hcmp. rewrite inject_Z_plus. change (inject_Z 1) with 1. lra.
Qed.

Lemma py_round_error (x : Q) (ndigits : nat) :
  Qabs (py_round x ndigits - x) <= (1 # 2) / pow10 ndigits.
Proof.
  pose proof (pow10_pos ndigits) as Hpos.
  pose proof (rint_error (x * pow10 ndigits)) as Herr.
  apply Qabs_Qle_condition in Herr as [Hlo Hhi].
  apply Qabs_Qle_condition. unfold py_round.
  set (r := inject_Z (rint (x * pow10 ndigits))) in *.
  set (p := pow10 ndigits) in *.
  assert (Hinv : 0 < / p) by (by apply Qinv_lt_0_compat).
  assert (Hx : x == x * p * / p) by (field; lra).
  split.
  - setoid_replace (- ((1 # 2) / p)) with (- (1 # 2) * / p) using relation Qeq by (field; lra).
    setoid_replace (r / p - x) with ((r - x * p) * / p) using relation Qeq by (field; lra).
    apply Qmult_le_compat_r; lra.
  - setoid_replace ((1 # 2) / p) with ((1 # 2) * / p) using relation Qeq by (field; lra).
    setoid_replace (r / p - x) with ((r - x * p) * / p) using relation Qeq by (field; lra).
    apply Qmult_le_compat_r; lra.
Qed.

(** X9. The threshold that is stored differs from the inverse CDF value by at
    most half a unit of the fifth decimal. *)
Theorem threshold_rounding_error (E : Env) (bound_threshold : Q) (log_params : LogParams) :
  Qabs (threshold_of E bound_threshold log_params
        - lognorm_ppf E (1 - bound_threshold) log_params) <= 1 # 200000.
Proof.
  unfold threshold_of.
  apply Qle_trans with ((1 # 2) / pow10 5); [apply py_round_error|].
  vm_compute. discriminate.
Qed.

Lemma rint_inject_Z (x : Q) (z : Z) : x == inject_Z z → rint x = z.
Proof.
  intros Hx. unfold rint.
  assert (Hfloor : Qfloor x = z) by (by rewrite Hx, Qfloor_Z).
  rewrite Hfloor.
  destruct (Qcompare (x - inject_Z z) (1 # 2)) eqn:Hcmp.
  - apply Qeq_alt in Hcmp. lra.
  - done.
  - apply Qgt_alt in Hcmp. lra.
Qed.

Lemma py_round_scaled (x : Q) (ndigits : nat) :
  py_round x ndigits * pow10 ndigits == inject_Z (rint (x * pow10 ndigits)).
Proof.
  unfold py_round. pose proof (pow10_pos ndigits). field. lra.
Qed.

(** X10. A stored threshold is a whole number of units of the fifth decimal:
    rounding it once more gives the same number. *)
Theorem threshold_round_again (E : Env) (bound_threshold : Q) (log_params : LogParams) :
  let threshold := threshold_of E bound_threshold log_params in
  (∃ z, threshold * pow10 5 == inject_Z z) ∧ py_round threshold 5 = threshold.
Proof.
  intros threshold. subst threshold. unfold threshold_of.
  set (v := lognorm_ppf E (1 - bound_threshold) log_params).
  split.
  - exists (rint (v * pow10 5)). apply py_round_scaled.
  - unfold py_round at 1. by rewrite (rint_inject_Z _ _ (py_round_scaled v 5)).
Qed.

(** ** The dictionaries filled by the two loops *)

Lemma score_step_thresholds (E : Env) (bound : Q) (background : Background)
    (conds : list string) (vars0 vars : ScoreVars) :
  for_each (score_step E bound background) conds vars0 = Done vars →
  (∀ c, c ∈ conds →
     ∃ t p, estimate_condition E bound background c = Done (t, p) ∧
            sv_thresholds vars !! c = Some t) ∧
  (∀ c, c ∉ conds → sv_thresholds vars !! c = sv_thresholds vars0 !! c).
Proof.
  revert vars0. induction conds as [|x conds IH]; intros vars0 Hrun; simpl in Hrun.
  - injection Hrun as <-. split; [by intros c ?%elem_of_nil | done].
  - destruct (score_step E bound background vars0 x) as [vars1| |] eqn:Hstep;
      simpl in Hrun; [|done|done].
    unfold score_step in Hstep.
    destruct (estimate_condition E bound background x) as [[t p]| |] eqn:Hx;
      simpl in Hstep; [|done|done].
    injection Hstep as <-. destruct (IH _ Hrun) as [Hin Hout]. simpl in Hout. split.
    + intros c Hc. destruct (decide (c ∈ conds)) as [Hc'|Hc']; [by apply Hin|].
      apply elem_of_cons in Hc as [->|Hc]; [|done].
      exists t, p. split; [done|]. rewrite Hout by done. apply lookup_insert_eq.
    + intros c Hc. apply not_elem_of_cons in Hc as [Hne Hc].
      rewrite Hout by done. by apply lookup_insert_ne.
Qed.

(** X11. When the loop over the conditions completes, [args.thresholds] has
    one entry for every condition name, the threshold estimated for that
    condition, and no other entry. *)
Theorem thresholds_per_condition (E : Env) (args : Args) (background : Background)
    (vars : ScoreVars) :
  estimate_scores E args background = Done vars →
  (∀ bigwig, bigwig ∈ cond_names args →
     ∃ t p, estimate_condition E (bound_threshold args) background bigwig = Done (t, p) ∧
            sv_thresholds vars !! bigwig = Some t) ∧
  (∀ bigwig, bigwig ∉ cond_names args → sv_thresholds vars !! bigwig = None).
Proof.
  unfold estimate_scores. intros Hrun.
  apply score_step_thresholds in Hrun as [Hin Hout]. split; [done|].
  intros bigwig Hc. by rewrite Hout.
Qed.

Lemma thresholds_per_condition_witness :
  ∃ vars,
    estimate_scores Stub.env (Stub.args_of ["A"; "B"; "A"] (1 # 2) None) Stub.background_AB
      = Done vars ∧
    sv_thresholds vars !! "A" = Some (390000 # 100000) ∧
    sv_thresholds vars !! "C" = None.
Proof.
  set (args := Stub.args_of ["A"; "B"; "A"] (1 # 2) None).
  destruct (estimate_scores Stub.env args Stub.background_AB) as [vars| |] eqn:Hvars;
    [|by vm_compute in Hvars..].
  destruct (thresholds_per_condition Stub.env args Stub.background_AB vars Hvars)
    as [Hin Hout].
  exists vars. split; [done|]. split.
  - destruct (Hin "A") as (t & p & Ht & ->); [by left|].
    vm_compute in Ht. by injection Ht as <- _.
  - apply Hout. intros Hc. simpl in Hc. rewrite !elem_of_cons, elem_of_nil in Hc.
    destruct Hc as [?|[?|[?|[]]]]; discriminate.
Defined.

Lemma log2fc_step_params (E : Env) (pseudo : Q) (background : Background)
    (comparisons : list (string * string))
    (params0 params : gmap (string * string) GaussianMixture) :
  for_each (log2fc_step E pseudo background) comparisons params0 = Done params →
  (∀ c, c ∈ comparisons →
     ∃ g, fit_log2fc_background E pseudo background c.1 c.2 = Done g ∧
          params !! c = Some g) ∧
  (∀ c, c ∉ comparisons → params !! c = params0 !! c).
Proof.
  revert params0. induction comparisons as [|x cs IH]; intros params0 Hrun; simpl in Hrun.
  - injection Hrun as <-. split; [by intros c ?%elem_of_nil | done].
  - destruct (log2fc_step E pseudo background params0 x) as [params1| |] eqn:Hstep;
      simpl in Hrun; [|done|done].
    unfold log2fc_step in Hstep.
    destruct (fit_log2fc_background E pseudo background x.1 x.2) as [g| |] eqn:Hx;
      simpl in Hstep; [|done|done].
    injection Hstep as <-. destruct (IH _ Hrun) as [Hin Hout]. split.
    + intros c Hc. destruct (decide (c ∈ cs)) as [Hc'|Hc']; [by apply Hin|].
      apply elem_of_cons in Hc as [->|Hc]; [|done].
      exists g. split; [done|]. rewrite Hout by done. apply lookup_insert_eq.
    + intros c Hc. apply not_elem_of_cons in Hc as [Hne Hc].
      rewrite Hout by done. by apply lookup_insert_ne.
Qed.

(** X13. When the loop over the comparisons completes, [log2fc_params] holds
    for every comparison the mixture fitted for that pair, and nothing else;
    with a single signal file it stays empty, whatever [cond_names] holds. *)
Theorem log2fc_params_per_comparison (E : Env) (args : Args) (pseudo : Q)
    (background : Background) (log2fc_params : gmap (string * string) GaussianMixture) :
  estimate_log2fc_params E args pseudo background = Done log2fc_params →
  if (1 <? length (signals args))%nat
  then (∀ c, c ∈ combinations2 (cond_names args) →
          ∃ g, fit_log2fc_background E pseudo background c.1 c.2 = Done g ∧
               log2fc_params !! c = Some g) ∧
       (∀ c, c ∉ combinations2 (cond_names args) → log2fc_params !! c = None)
  else log2fc_params = ∅.
Proof.
  unfold estimate_log2fc_params. destruct (1 <? length (signals args))%nat.
  - intros Hrun. apply log2fc_step_params in Hrun as [Hin Hout]. split; [done|].
    intros c Hc. by rewrite Hout.
  - by intros [= <-].
Qed.

Lemma log2fc_params_per_comparison_witness :
  ∃ log2fc_params g,
    estimate_log2fc_params Stub.env (Stub.args_of ["A"; "B"] (1 # 2) None) (7 # 8)
      Stub.background_AB = Done log2fc_params ∧
    log2fc_params !! ("A", "B") = Some g ∧ log2fc_params !! ("B", "A") = None.
Proof.
  set (args := Stub.args_of ["A"; "B"] (1 # 2) None).
  destruct (estimate_log2fc_params Stub.env args (7 # 8) Stub.background_AB)
    as [params| |] eqn:Hparams; [|by vm_compute in Hparams..].
  pose proof (log2fc_params_per_comparison Stub.env args (7 # 8) Stub.background_AB
                params Hparams) as H.
  simpl in H. destruct H as [Hin Hout].
  destruct (Hin ("A", "B")) as (g & _ & Hg); [by left|].
  exists params, g. split; [done|]. split; [done|].
  apply Hout. intros Hc. apply list_elem_of_singleton in Hc. discriminate.
Defined.

(** ** Comparisons, columns and titles *)

Lemma combinations2_length {A : Type} (xs : list A) :
  (2 * length (combinations2 xs) = length xs * (length xs - 1))%nat.
Proof.
  induction xs as [|x xs IH]; [done|].
  simpl combinations2. rewrite length_app, length_map. simpl length.
  destruct (length xs) as [|n]; [simpl in *; lia|].
  replace (S (S n) - 1)%nat with (S n) by lia.
  replace (S n - 1)%nat with n in IH by lia. nia.
Qed.

Lemma product_length {A B : Type} (xs : list A) (ys : list B) :
  length (product xs ys) = (length xs * length ys)%nat.
Proof.
  unfold product. induction xs as [|x xs IH]; [done|].
  change (length (map (pair x) ys ++ (xs ≫= λ x, map (pair x) ys))
          = (S (length xs) * length ys)%nat).
  rewrite length_app, length_map, IH. lia.
Qed.

(** X15. The comparisons pair every condition with every condition that
    comes later in [cond_names], and with no other: for n names there are
    n(n-1)/2 of them. *)
Theorem comparisons_are_ordered_pairs (cond_names : list string) :
  (∀ cond1 cond2, (cond1, cond2) ∈ combinations2 cond_names ↔
     ∃ i j, (i < j)%nat ∧ cond_names !! i = Some cond1 ∧ cond_names !! j = Some cond2) ∧
  (2 * length (combinations2 cond_names)
   = length cond_names * (length cond_names - 1))%nat.
Proof.
  split; [|apply combinations2_length].
  induction cond_names as [|x l IH]; intros a b.
  - split; [by intros ?%elem_of_nil | by intros (i & j & _ & Hi & _)].
  - simpl combinations2. rewrite elem_of_app, list_elem_of_fmap, IH. split.
    + intros [(y & [= -> ->] & [k Hk]%list_elem_of_lookup) | (i & j & Hij & Hi & Hj)].
      * exists 0%nat, (S k). split; [lia|]. by split.
      * exists (S i), (S j). split; [lia|]. by split.
    + intros ([|i] & [|j] & Hij & Hi & Hj); try lia; simpl in Hi, Hj.
      * injection Hi as ->. left. exists b. split; [done|]. by eapply list_elem_of_lookup_2.
      * right. exists i, j. split; [lia|]. by split.
Qed.

(** X16. For n conditions the header of the result table has n² + n + 1
    columns: the total, two per condition and two per comparison. *)
Theorem info_columns_count (cond_names : list string) :
  length (info_columns cond_names (combinations2 cond_names))
  = (length cond_names * length cond_names + length cond_names + 1)%nat.
Proof.
  unfold info_columns. rewrite !length_app, !length_map, !product_length.
  pose proof (combinations2_length cond_names) as Hc. simpl length.
  destruct (length cond_names) as [|n]; [simpl in *; lia|].
  replace (S n - 1)%nat with n in Hc by lia. nia.
Qed.

(** X17. Every column that is reformatted before the text table is written
    (lines 654-657) is a column of the header (lines 603-605). *)
Theorem formatted_columns_in_header (cond_names : list string)
    (comparisons : list (string * string)) (col : string) :
  col ∈ formatted_columns comparisons → col ∈ info_columns cond_names comparisons.
Proof.
  unfold formatted_columns, info_columns.
  intros ([cond1 cond2] & Hcol & Hcmp)%list_elem_of_bind.
  rewrite !elem_of_app. right. right.
  apply list_elem_of_fmap.
  rewrite !elem_of_cons, elem_of_nil in Hcol. destruct Hcol as [-> | [-> | []]].
  - exists ((cond1, cond2), "change"). split; [done|].
    unfold product. apply list_elem_of_bind. exists (cond1, cond2). split; [|done].
    apply list_elem_of_fmap. exists "change". split; [done | by left].
  - exists ((cond1, cond2), "pvalue"). split; [done|].
    unfold product. apply list_elem_of_bind. exists (cond1, cond2). split; [|done].
    apply list_elem_of_fmap. exists "pvalue". split; [done | right; by left].
Qed.

Lemma formatted_columns_in_header_witness :
  "A_B_pvalue" ∈ info_columns ["A"; "B"] (combinations2 ["A"; "B"]).
Proof.
  apply (formatted_columns_in_header ["A"; "B"] (combinations2 ["A"; "B"]) "A_B_pvalue").
  simpl. right. by left.
Defined.

(** X20. The first page of the figures lists n² titles for n conditions: one
    per condition and two per comparison. *)
Theorem figure_titles_count (cond_names : list string) :
  length (figure_titles cond_names (combinations2 cond_names))
  = (length cond_names * length cond_names)%nat.
Proof.
  unfold figure_titles. rewrite !length_app, !length_map.
  pose proof (combinations2_length cond_names) as Hc.
  destruct (length cond_names) as [|n]; [simpl in *; lia|].
  replace (S n - 1)%nat with n in Hc by lia. nia.
Qed.

(** ** Output files *)

(** X21. Whatever the conditions are, the files checked for writing before
    the run are the two result tables and the figures; the distance matrix
    and the per-TF files are not among the last three patterns. *)
Theorem checked_for_writing_files (path : list string → string) (outdir : string)
    (cond_names : list string) :
  checked_for_writing path outdir cond_names
  = [path [outdir; "bindetect_results.txt"];
     path [outdir; "bindetect_results.xlsx"];
     path [outdir; "bindetect_figures.pdf"]].
Proof.
  unfold checked_for_writing, py_last.
  set (last3 := [path [outdir; "bindetect_results.txt"];
                 path [outdir; "bindetect_results.xlsx"];
                 path [outdir; "bindetect_figures.pdf"]]).
  assert (Hsplit : ∃ front, outfiles path outdir cond_names = front ++ last3).
  { eexists (_ ++ [_; _; _; _; _]). unfold outfiles. by rewrite <- (assoc_L (++)). }
  destruct Hsplit as [front ->].
  rewrite length_app. simpl length.
  replace (length front + 3 - 3)%nat with (length front) by lia.
  by rewrite drop_app_length.
Qed.

(** ** Checks and their messages *)

(** X12. The Differential Null Estimator exits with a message only when both
    signal vectors and the GC vector have one length and no position is
    retained, and the message is then the one that names the pair. *)
Theorem log2fc_background_exit (E : Env) (pseudo : Q) (background : Background)
    (bigwig1 bigwig2 msg : string) :
  fit_log2fc_background E pseudo background bigwig1 bigwig2 = SysExit msg →
  msg = zero_message bigwig1 bigwig2 ∧
  ∃ scores1 scores2,
    bg_signal background !! bigwig1 = Some scores1 ∧
    bg_signal background !! bigwig2 = Some scores2 ∧
    length scores1 = length scores2 ∧
    length (bg_gc background) = length scores1 ∧
    retained scores1 scores2 (bg_gc background) = [].
Proof.
  intros Hexit.
  destruct (bg_signal background !! bigwig1) as [scores1|] eqn:H1;
    [|by unfold fit_log2fc_background in Hexit; rewrite H1 in Hexit].
  destruct (bg_signal background !! bigwig2) as [scores2|] eqn:H2;
    [|by unfold fit_log2fc_background in Hexit; rewrite H1, H2 in Hexit].
  destruct (decide (length scores1 = length scores2)) as [Hlen|Hlen].
  2:{ unfold fit_log2fc_background in Hexit. rewrite H1, H2 in Hexit. simpl in Hexit.
      apply Nat.eqb_neq in Hlen. by rewrite Hlen in Hexit. }
  destruct (decide (length (bg_gc background) = length scores1)) as [Hgc|Hgc].
  2:{ unfold fit_log2fc_background in Hexit. rewrite H1, H2 in Hexit. simpl in Hexit.
      apply Nat.eqb_neq in Hgc. by rewrite Hgc, andb_false_r in Hexit. }
  rewrite (fit_log2fc_background_unfold E pseudo background _ _ _ _ H1 H2 Hlen Hgc) in Hexit.
  destruct (retained scores1 scores2 (bg_gc background)) as [|pos rest] eqn:Hret.
  - simpl in Hexit. injection Hexit as <-. split; [done|].
    by exists scores1, scores2.
  - simpl in Hexit. by apply best_gmm_over_no_exit in Hexit.
Qed.

Lemma log2fc_background_exit_witness :
  zero_message "A" "B" = zero_message "A" "B" ∧
  ∃ scores1 scores2,
    bg_signal Stub.background_zero !! "A" = Some scores1 ∧
    bg_signal Stub.background_zero !! "B" = Some scores2 ∧
    length scores1 = length scores2 ∧
    length (bg_gc Stub.background_zero) = length scores1 ∧
    retained scores1 scores2 (bg_gc Stub.background_zero) = [].
Proof.
  apply (log2fc_background_exit Stub.env 1 Stub.background_zero "A" "B").
  reflexivity.
Defined.

(** X18. The check of the motifs passes exactly when every matrix is a
    rectangle of four rows; when it exits, the message is the same for every
    motif, with the placeholder [{0}] still in it. *)
Theorem check_motif_format_passes (pfms : list (list (list Q))) :
  (check_motif_format pfms = Done ()
   ↔ Forall (λ pfm, ∃ cols, np_shape2 pfm = Some (4%nat, cols)) pfms) ∧
  (∀ msg, check_motif_format pfms = SysExit msg → msg = motif_format_message).
Proof.
  unfold check_motif_format. induction pfms as [|pfm pfms [IHdone IHexit]].
  - split; [by split | done].
  - assert (Hhead : check_motif () pfm =
              match np_shape2 pfm with
              | Some (rows, _) =>
                  if (rows =? 4)%nat then Done () else SysExit motif_format_message
              | None => Raised "rows, cols = np.array(motif.pfm).shape"
              end).
    { unfold check_motif. by destruct (np_shape2 pfm) as [[rows cols]|]. }
    cbn [for_each]. rewrite Hhead. clear Hhead.
    destruct (np_shape2 pfm) as [[rows cols]|] eqn:Hshape; simpl.
    + destruct (rows =? 4)%nat eqn:Hrows; simpl.
      * apply Nat.eqb_eq in Hrows as ->. split; [|exact IHexit].
        rewrite IHdone. split.
        -- intros H. constructor; [by exists cols | done].
        -- by intros [_ H]%Forall_cons.
      * split.
        -- split; [done|]. intros [[cols' Heq] _]%Forall_cons.
           apply Nat.eqb_neq in Hrows. congruence.
        -- by intros msg [= <-].
    + split; [|done]. split; [done|].
      intros [[cols' Heq] _]%Forall_cons. congruence.
Qed.

(** X19. With [args.debug], the plot of the mixture reads the components 0
    and 1 of [means] and [sds], which have one entry per component: it
    raises [IndexError] at [means[i]] for every mixture with fewer than two
    components, in particular whenever one component was selected. *)
Theorem debug_plot_mixture_bounds (means sds : list Q) :
  length sds = length means →
  debug_plot_mixture means sds =
    if (2 <=? length means)%nat then Done () else Raised "means[i]".
Proof.
  unfold debug_plot_mixture, debug_plot_component.
  destruct means as [|m0 [|m1 means]], sds as [|s0 [|s1 sds]]; intros Hlen;
    try discriminate Hlen; reflexivity.
Qed.

Lemma debug_plot_mixture_bounds_witness :
  debug_plot_mixture [4 # 3] [1] = Raised "means[i]".
Proof. apply (debug_plot_mixture_bounds [4 # 3] [1]). reflexivity. Defined.

(** ** The scores that are fitted *)

(** X22. The scores of a condition are looked up by its name ([KeyError]
    when the background has none); of these, the estimator keeps, in their
    order, exactly the scores that are more than 1e-08 away from zero. *)
Theorem bg_values_of_filters (background : Background) (bigwig : string) :
  match bg_signal background !! bigwig with
  | None => bg_values_of background bigwig = Raised "background[signal][bigwig]"
  | Some scores =>
      ∃ bg_values, bg_values_of background bigwig = Done bg_values ∧
        bg_values `sublist_of` scores ∧
        ∀ v, v ∈ bg_values ↔ v ∈ scores ∧ (1 # 100000000) < Qabs v
  end.
Proof.
  unfold bg_values_of. destruct (bg_signal background !! bigwig) as [scores|]; [|done].
  simpl. eexists. split; [done|].
  rewrite mask_index_filter. clear. induction scores as [|x scores [IHsub IHin]].
  - split; [done|]. intros v. split; [by intros ?%elem_of_nil | by intros [?%elem_of_nil _]].
  - simpl. destruct (Np.isclose0 x) eqn:Hx; unfold Np.isclose0 in Hx; simpl.
    + apply Qle_bool_iff in Hx. split; [by apply sublist_cons|].
      intros v. rewrite IHin, elem_of_cons. split; [tauto|].
      intros [[->|Hin] Hv]; [lra | done].
    + assert (Hgt : (1 # 100000000) < Qabs x).
      { apply Qnot_le_lt. intros Hle%Qle_bool_iff. congruence. }
      split; [by apply sublist_skip|].
      intros v. rewrite !elem_of_cons, IHin. split; [|tauto].
      intros [->|[Hin Hv]]; [|tauto]. split; [by left | done].
Qed.
